(** * s_lock.c : the platform-independent part of spinlock waiting

    A shallow embedding of [src/backend/storage/lmgr/s_lock.c]
    (PostgreSQL 8.5/9.0 era, as shipped in gpdb) and the properties of
    its adaptive spin/sleep loop.

    - C [int] values are integers in [Z]; every arithmetic operation of the
      source is written with its 32-bit wrap-around ([CInt.add] ...).
    - The file-static [spins_per_delay] is the single field of [globals],
      threaded through the three entry points.
    - The loop of [s_lock] talks to the outside through [TAS], [random]
      and [pg_usleep]; the first two are oracles of the environment (the
      k-th answer of each), the third is logged in the loop state.
    - [s_lock_stuck] does not come back (PANIC, or [exit(1)] in the test
      build): it is a terminal outcome of the loop. *)

From Stdlib Require Import String ZArith List Lia QArith Qabs Bool.
Import ListNotations.
Local Open Scope Z_scope.

(** ** C [int] arithmetic *)

Module CInt.

Definition INT_MIN : Z := -2147483648.
Definition INT_MAX : Z := 2147483647.

Definition in_range (z : Z) : Prop := INT_MIN <= z <= INT_MAX.

(** Two's complement normalisation of a mathematical integer. *)
Definition wrap (z : Z) : Z := (z + 2147483648) mod 4294967296 - 2147483648.

Definition add (a b : Z) : Z := wrap (a + b).
Definition sub (a b : Z) : Z := wrap (a - b).
Definition mul (a b : Z) : Z := wrap (a * b).
(** C99 division truncates toward zero. *)
Definition div (a b : Z) : Z := wrap (Z.quot a b).

(** The [Min] and [Max] macros of c.h. *)
Definition Min (x y : Z) : Z := if x <? y then x else y.
Definition Max (x y : Z) : Z := if x >? y then x else y.

End CInt.

(** ** Constants of s_lock() *)

Definition MIN_SPINS_PER_DELAY : Z := 10.
Definition MAX_SPINS_PER_DELAY : Z := 1000.
Definition NUM_DELAYS : Z := 1000.
Definition MIN_DELAY_MSEC : Z := 1.
Definition MAX_DELAY_MSEC : Z := 1000.

(** [DEFAULT_SPINS_PER_DELAY] and [MAX_RANDOM_VALUE] are declared in
    headers (s_lock.h, c.h) and not in s_lock.c; the values are the ones
    PostgreSQL gives them: 100 and 0x7FFFFFFF, the largest result of
    [random()]. *)
Definition DEFAULT_SPINS_PER_DELAY : Z := 100.
Definition MAX_RANDOM_VALUE : Z := 2147483647.

(** ** Process-local state *)

Record globals : Type := mkGlobals { spins_per_delay : Z }.

Definition initial_globals : globals := mkGlobals DEFAULT_SPINS_PER_DELAY.

(** ** The randomised increase of the delay

    [(int) (cur_delay * ((double) random() / (double) MAX_RANDOM_VALUE) + 0.5)]

    The double expression is evaluated here in exact rational arithmetic;
    [double_to_int] is the C conversion, which drops the fractional part.
    The exact value is never an integer and stays at least
    1/(2*MAX_RANDOM_VALUE) away from one (lemma [increase_margin] below),
    far more than the rounding error of the three double operations on
    operands below 2^31, so the conversion sees the same integer part. *)

Definition double_to_int (q : Q) : Z := Z.quot (Qnum q) (Zpos (Qden q)).

Definition random_fraction (r : Z) : Q :=
  (inject_Z r / inject_Z MAX_RANDOM_VALUE)%Q.

Definition random_increase (cur_delay r : Z) : Z :=
  double_to_int (inject_Z cur_delay * random_fraction r + (1 # 2))%Q.

(** Lines 121-126: the delay to use at the next sleep. *)
Definition next_delay (cur_delay r : Z) : Z :=
  let cur_delay := CInt.add cur_delay (random_increase cur_delay r) in
  if cur_delay >? MAX_DELAY_MSEC then MIN_DELAY_MSEC else cur_delay.

(** ** The environment of one call *)

Record environment : Type := mkEnv {
  (** result of the k-th evaluation of [TAS(lock)]: zero when the lock was
      obtained, nonzero when it was found set *)
  TAS : nat -> Z;
  (** result of the k-th call of [random()] *)
  random : nat -> Z
}.

(** [random()] returns a value between 0 and [MAX_RANDOM_VALUE]. *)
Definition random_ok (env : environment) : Prop :=
  forall k, 0 <= random env k <= MAX_RANDOM_VALUE.

(** ** The locals of s_lock() *)

Record locals : Type := mkLocals {
  spins : Z;
  delays : Z;
  cur_delay : Z;
  (** number of [TAS] evaluations and [random()] calls made so far *)
  tas_calls : nat;
  random_calls : nat;
  (** milliseconds handed to [pg_usleep], most recent first
      ([pg_usleep (cur_delay * 1000L)]); in the test build, one star is
      printed for each *)
  slept : list Z
}.

Definition initial_locals : locals := mkLocals 0 0 0 0%nat 0%nat [].

Inductive iteration : Type :=
| Continue (l : locals)      (* back to the loop test *)
| Leave (l : locals)         (* TAS gave 0: the loop is left *)
| Panic (l : locals).        (* the process was ended *)

(** [s_lock_stuck]: reports the lock and the call site, then ends the
    process, with [exit(1)] in the test build and [elog(PANIC, ...)]
    otherwise.  Nothing of s_lock() runs after it; the test program says
    so as well: it treats a return of its last s_lock() as a failure. *)
Definition s_lock_stuck (l : locals) : iteration := Panic l.

(** One evaluation of the loop test followed, when the test holds, by one
    run of the body (lines 100-130). *)
Definition loop_iteration (env : environment) (g : globals) (l : locals)
  : iteration :=
  let tas := TAS env (tas_calls l) in
  let l := mkLocals (spins l) (delays l) (cur_delay l)
                    (S (tas_calls l)) (random_calls l) (slept l) in
  if tas =? 0 then Leave l
  else
    let spins' := CInt.add (spins l) 1 in
    if spins' >=? spins_per_delay g then
      let delays' := CInt.add (delays l) 1 in
      if delays' >? NUM_DELAYS then
        s_lock_stuck (mkLocals spins' delays' (cur_delay l)
                               (tas_calls l) (random_calls l) (slept l))
      else
        let cur := if cur_delay l =? 0 then MIN_DELAY_MSEC else cur_delay l in
        let log := cur :: slept l in
        let r := random env (random_calls l) in
        Continue (mkLocals 0 delays' (next_delay cur r)
                           (tas_calls l) (S (random_calls l)) log)
    else
      Continue (mkLocals spins' (delays l) (cur_delay l)
                         (tas_calls l) (random_calls l) (slept l)).

Inductive loop_result : Type :=
| Left_loop (l : locals)
| Stuck_in_loop (l : locals)
| Still_looping.

Fixpoint s_lock_loop (fuel : nat) (env : environment) (g : globals)
  (l : locals) : loop_result :=
  match fuel with
  | O => Still_looping
  | S fuel' =>
      match loop_iteration env g l with
      | Continue l' => s_lock_loop fuel' env g l'
      | Leave l' => Left_loop l'
      | Panic l' => Stuck_in_loop l'
      end
  end.

(** Lines 147-157: the adjustment made once the lock is held. *)
Definition adjust_spins_per_delay (cur_delay : Z) (g : globals) : globals :=
  if cur_delay =? 0 then
    if spins_per_delay g <? MAX_SPINS_PER_DELAY then
      mkGlobals (CInt.Min (CInt.add (spins_per_delay g) 100) MAX_SPINS_PER_DELAY)
    else g
  else
    if spins_per_delay g >? MIN_SPINS_PER_DELAY then
      mkGlobals (CInt.Max (CInt.sub (spins_per_delay g) 1) MIN_SPINS_PER_DELAY)
    else g.

(** Number of loop iterations within which the loop is over: each of the
    [NUM_DELAYS + 1] rounds takes [spins_per_delay] failed tries (one when
    [spins_per_delay] is below one). *)
Definition iteration_bound (g : globals) : nat :=
  S (Z.to_nat ((NUM_DELAYS + 1) * Z.max 1 (spins_per_delay g))).

Inductive outcome : Type :=
| Acquired (g : globals) (l : locals)   (* s_lock() returned *)
| Stuck (g : globals) (l : locals)      (* s_lock_stuck(): process ended *)
| Diverges.

Definition s_lock (env : environment) (g : globals) : outcome :=
  match s_lock_loop (iteration_bound g) env g initial_locals with
  | Left_loop l => Acquired (adjust_spins_per_delay (cur_delay l) g) l
  | Stuck_in_loop l => Stuck g l
  | Still_looping => Diverges
  end.

(** ** Seeding and folding the shared estimate *)

Definition set_spins_per_delay (shared_spins_per_delay : Z) (g : globals)
  : globals :=
  mkGlobals shared_spins_per_delay.

Definition recompute_spins_per_delay (shared_spins_per_delay : Z)
  (g : globals) : Z :=
  CInt.div (CInt.add (CInt.mul shared_spins_per_delay 15) (spins_per_delay g))
           16.

(** ** The lock word and its atomic operations *)

Module AtomicFlag.

(** [tas()], the m68k routine at the end of s_lock.c: the [tas]
    instruction sets the condition codes from the byte and then sets its
    high bit, in one indivisible bus cycle; the routine answers 0 when
    the byte was zero ([beq _success]) and -128 otherwise.  The pair is
    (value returned, new content of the byte). *)
Definition tas (lock : Z) : Z * Z :=
  (if lock =? 0 then 0 else -128, Z.lor lock 128).

(** Modelled from the spec: [release()], the [S_UNLOCK] macro of
    s_lock.h, which is not part of s_lock.c: "atomically transitions
    Locked -> Free". *)
Definition release (lock : Z) : Z := 0.

(** Modelled from the spec: [isFree()], the [S_LOCK_FREE] macro of
    s_lock.h: a probe that does not change the flag. *)
Definition isFree (lock : Z) : bool := lock =? 0.

(** A call made by some process on the one shared flag.  The
    operations are atomic, so a concurrent execution is the sequence of
    the calls in the order in which they take effect. *)
Inductive call : Type :=
| TryAcquire (who : nat)
| Release (who : nat).

Inductive event : Type :=
| Tried (who : nat) (acquired : bool)
| Released (who : nat).

Fixpoint history (lock : Z) (cs : list call) : list event :=
  match cs with
  | [] => []
  | TryAcquire who :: cs' =>
      let (ret, lock') := tas lock in
      Tried who (ret =? 0) :: history lock' cs'
  | Release who :: cs' => Released who :: history (release lock) cs'
  end.

Fixpoint final (lock : Z) (cs : list call) : Z :=
  match cs with
  | [] => lock
  | TryAcquire _ :: cs' => final (snd (tas lock)) cs'
  | Release _ :: cs' => final (release lock) cs'
  end.

Definition is_release (e : event) : bool :=
  match e with Released _ => true | Tried _ _ => false end.

Definition is_success (e : event) : bool :=
  match e with Tried _ true => true | _ => false end.

Definition successes (h : list event) : nat :=
  length (filter is_success h).

(** The events number [i], [i+1], ..., [i+n-1] of a history. *)
Definition segment (i n : nat) (h : list event) : list event :=
  firstn n (skipn i h).

End AtomicFlag.

(** ** The backoff rule as section 4.2 of the specification words it *)

Module BackoffSequencer.

Definition MIN_DELAY_MS : Z := 1.
Definition MAX_DELAY_MS : Z := 1000.

(** [z] is an integer nearest to [x]. *)
Definition nearest_integer (x : Q) (z : Z) : Prop :=
  (Qabs (x - inject_Z z) <= 1 # 2)%Q.

(** "if the result exceeds MAX_DELAY_MS, wrap back to MIN_DELAY_MS" *)
Definition wrap_back (result : Z) : Z :=
  if result >? MAX_DELAY_MS then MIN_DELAY_MS else result.

(** [step currentDelayMs next]: [next] is a delay the rule allows after
    [currentDelayMs]; [U] is the random draw. *)
Inductive step (currentDelayMs : Z) : Z -> Prop :=
| step_first :
    currentDelayMs = 0 -> step currentDelayMs MIN_DELAY_MS
| step_grow (U : Q) (rounded : Z) :
    currentDelayMs <> 0 ->
    (0 <= U)%Q -> (U < 1)%Q ->
    nearest_integer (inject_Z currentDelayMs * U) rounded ->
    step currentDelayMs (wrap_back (currentDelayMs + rounded)).

(** A log of delays, most recent first, in which the first delay
    follows 0 and every later one follows its predecessor. *)
Inductive schedule : list Z -> Prop :=
| schedule_nil : schedule []
| schedule_one d : step 0 d -> schedule [d]
| schedule_cons d' d log :
    step d d' -> schedule (d :: log) -> schedule (d' :: d :: log).


End BackoffSequencer.

(** ** Successive calls and repeated backoff steps *)

(** Calls of [s_lock] made one after the other by one process, each in
    its own environment; [None] when one of them ended the process. *)
Fixpoint s_lock_sequence (envs : list environment) (g : globals)
  : option globals :=
  match envs with
  | [] => Some g
  | env :: envs' =>
      match s_lock env g with
      | Acquired g' _ => s_lock_sequence envs' g'
      | Stuck _ _ | Diverges => None
      end
  end.

(** The delays produced by lines 121-126 run again and again from
    [cur_delay], with the draws [rs]. *)
Fixpoint delays_from (cur_delay : Z) (rs : list Z) : list Z :=
  match rs with
  | [] => []
  | r :: rs' =>
      let next := next_delay cur_delay r in
      next :: delays_from next rs'
  end.

(** ** Invariants of the loop *)

(** Number of failed tries after which a sleep is due. *)
Definition spin_budget (g : globals) : Z := Z.max 1 (spins_per_delay g).

(** Upper bound of the number of iterations still to come. *)
Definition remaining (g : globals) (l : locals) : Z :=
  (NUM_DELAYS + 1 - delays l) * spin_budget g - spins l.

Record counters_invariant (g : globals) (l : locals) : Prop := mkCounters {
  inv_spins : 0 <= spins l < spin_budget g;
  inv_delays : 0 <= delays l <= NUM_DELAYS;
  inv_count : Z.of_nat (length (slept l)) = delays l;
  inv_calls :
    Z.of_nat (tas_calls l) + remaining g l
    <= (NUM_DELAYS + 1) * spin_budget g
}.

Definition delay_in_range (d : Z) : Prop :=
  MIN_DELAY_MSEC <= d <= MAX_DELAY_MSEC.

Definition spins_in_bounds (g : globals) : Prop :=
  MIN_SPINS_PER_DELAY <= spins_per_delay g <= MAX_SPINS_PER_DELAY.

Record backoff_invariant (l : locals) : Prop := mkBackoff {
  inv_cur :
    match slept l with
    | [] => cur_delay l = 0
    | d :: _ => delay_in_range (cur_delay l)
                /\ BackoffSequencer.step d (cur_delay l)
    end;
  inv_range : Forall delay_in_range (slept l);
  inv_schedule : BackoffSequencer.schedule (slept l)
}.

(** ** Some environments *)

(** The lock is free at the first try. *)
Definition sample_random (k : nat) : Z :=
  (Z.of_nat k * 1103515245 + 12345) mod 2147483648.

Definition env_free : environment := mkEnv (fun _ => 0) sample_random.

(** The lock is held and never released. *)
Definition env_locked : environment :=
  mkEnv (fun _ => -128) sample_random.

(** Calls on one flag by three processes, with two releases. *)
Definition three_processes : list AtomicFlag.call :=
  [AtomicFlag.TryAcquire 1; AtomicFlag.TryAcquire 2; AtomicFlag.Release 1;
   AtomicFlag.TryAcquire 3; AtomicFlag.TryAcquire 2; AtomicFlag.TryAcquire 1;
   AtomicFlag.Release 3; AtomicFlag.TryAcquire 2].

(** The lock is found set [n] times, then obtained. *)
Definition env_contended (n : nat) : environment :=
  mkEnv (fun k => if (k <? n)%nat then -128 else 0) sample_random.

(** ** Notions used by the further properties *)

(** [n] is the first try at which [TAS] obtains the lock. *)
Definition first_free (env : environment) (n : nat) : Prop :=
  TAS env n = 0 /\ forall k, (k < n)%nat -> TAS env k <> 0.

(** Every try made so far has failed, and the tries are counted by
    [delays] rounds of [spin_budget] tries plus [spins]. *)
Record tries_invariant (env : environment) (g : globals) (l : locals)
  : Prop := mkTries {
  tries_counters : counters_invariant g l;
  tries_count :
    Z.of_nat (tas_calls l) = delays l * spin_budget g + spins l;
  tries_failed : forall k, (k < tas_calls l)%nat -> TAS env k <> 0
}.




(** Milliseconds slept in all by a call. *)
Definition total_sleep (l : locals) : Z := fold_right Z.add 0 (slept l).

Definition flag_releases (h : list AtomicFlag.event) : nat :=
  length (filter AtomicFlag.is_release h).

(** The lock word after [k] executions of [tas] by the only process that
    touches it. *)
Fixpoint lock_after (k : nat) (lock : Z) : Z :=
  match k with
  | O => lock
  | S k' => snd (AtomicFlag.tas (lock_after k' lock))
  end.

(** The environment of a call of s_lock() made while no other process
    touches the lock word: the k-th [TAS] sees the word as the earlier
    ones left it. *)
Definition env_alone (lock : Z) (rnd : nat -> Z) : environment :=
  mkEnv (fun k => fst (AtomicFlag.tas (lock_after k lock))) rnd.

(** Every delay of a log (most recent first) is at most two to the
    number of sleeps made before it. *)
Fixpoint doubling_bound (log : list Z) : Prop :=
  match log with
  | [] => True
  | d :: earlier =>
      d <= 2 ^ Z.of_nat (length earlier) /\ doubling_bound earlier
  end.

Record doubling_invariant (l : locals) : Prop := mkDoubling {
  doubling_backoff : backoff_invariant l;
  doubling_log : doubling_bound (slept l);
  doubling_cur : cur_delay l <= 2 ^ Z.of_nat (length (slept l))
}.

(** An environment in which the lock is first found free after at
    least [MAX_SPINS_PER_DELAY] failed tries, and before
    [(NUM_DELAYS + 1) * MIN_SPINS_PER_DELAY] of them: whatever the
    estimate within its bounds, the call sleeps and then returns. *)
Definition contended_env (env : environment) : Prop :=
  random_ok env
  /\ exists n, first_free env n
               /\ MAX_SPINS_PER_DELAY <= Z.of_nat n
                  < (NUM_DELAYS + 1) * MIN_SPINS_PER_DELAY.

(** ** The test program (S_LOCK_TEST)

    [main()] at the end of s_lock.c, run by one process on its own lock.
    The macros it uses come from s_lock.h, which is not part of
    s_lock.c; they are taken as PostgreSQL defines them for a port with
    a [tas()] routine: [S_LOCK(lock)] is
    [if (TAS(lock)) s_lock((lock), __FILE__, __LINE__)], [S_UNLOCK(lock)]
    stores 0, [S_INIT_LOCK] is [S_UNLOCK] and [S_LOCK_FREE(lock)] tests
    for 0.  The three fields of [test_lock] are kept apart: an
    [slock_t] of a wrong size, which the checks of the two pad bytes are
    there to catch, is outside the model.  Format strings are kept as
    the source writes them. *)

Module SelfTest.

Record test_lock_struct : Type := mkTestLock {
  pad1 : Z;
  lock : Z;
  pad2 : Z
}.

Inductive output : Type :=
| Printf (format : string) (args : list Z)  (* printf on stdout *)
| Star                  (* fprintf(stdout, "*") after a sleep of s_lock() *)
| Stuck_spinlock.       (* the message of s_lock_stuck() on stderr *)

Inductive ending : Type :=
| Return (status : Z)   (* main() returned *)
| Exit (status : Z)     (* exit() was called *)
| Hang.

Record machine : Type := mkMachine {
  test_lock : test_lock_struct;
  statics : globals;
  random_used : nat;    (* calls of random() made so far *)
  printed : list output
}.

Inductive result : Type :=
| Running (m : machine)
| Ended (out : list output) (e : ending).

Definition statement : Type := machine -> result.

Definition seq (s1 s2 : statement) : statement :=
  fun m => match s1 m with
           | Running m' => s2 m'
           | Ended out e => Ended out e
           end.

Notation "s1 ;; s2" := (seq s1 s2) (at level 61, right associativity).

Definition set_lock (v : Z) (m : machine) : machine :=
  mkMachine (mkTestLock (pad1 (test_lock m)) v (pad2 (test_lock m)))
            (statics m) (random_used m) (printed m).

Definition print (o : list output) (m : machine) : machine :=
  mkMachine (test_lock m) (statics m) (random_used m) (printed m ++ o).

Definition printf (format : string) (args : list Z) : statement :=
  fun m => Running (print [Printf format args] m).

(** [printf(message); return 1;] *)
Definition failed (message : string) : statement :=
  fun m => Ended (printed m ++ [Printf message []]) (Return 1).

(** [test_lock.pad1 = test_lock.pad2 = 0x44;] *)
Definition set_pads : statement :=
  fun m => Running (mkMachine (mkTestLock 68 (lock (test_lock m)) 68)
                              (statics m) (random_used m) (printed m)).

Definition check_pads : statement :=
  fun m =>
    if negb (pad1 (test_lock m) =? 68) || negb (pad2 (test_lock m) =? 68)
    then failed "S_LOCK_TEST: failed, declared datatype is wrong size\n" m
    else Running m.

Definition S_UNLOCK : statement :=
  fun m => Running (set_lock (AtomicFlag.release (lock (test_lock m))) m).

Definition S_INIT_LOCK : statement := S_UNLOCK.

Definition S_LOCK_FREE (m : machine) : bool :=
  AtomicFlag.isFree (lock (test_lock m)).

(** A call of s_lock() on [test_lock.lock]: the draws of [random()]
    go on from where the earlier calls stopped, one star is printed for
    each sleep, and [s_lock_stuck] prints its message and exits with
    status 1. *)
Definition call_s_lock (rnd : nat -> Z) : statement :=
  fun m =>
    let env := env_alone (lock (test_lock m))
                         (fun k => rnd (random_used m + k)%nat) in
    match s_lock env (statics m) with
    | Acquired g' l =>
        Running
          (mkMachine
             (mkTestLock (pad1 (test_lock m))
                         (lock_after (tas_calls l) (lock (test_lock m)))
                         (pad2 (test_lock m)))
             g' (random_used m + random_calls l)
             (printed m ++ repeat Star (length (slept l))))
    | Stuck _ l =>
        Ended (printed m ++ repeat Star (length (slept l))
                 ++ [Stuck_spinlock])
              (Exit 1)
    | Diverges => Ended (printed m) Hang
    end.

Definition S_LOCK (rnd : nat -> Z) : statement :=
  fun m =>
    let (ret, lock') := AtomicFlag.tas (lock (test_lock m)) in
    if ret =? 0 then Running (set_lock lock' m)
    else call_s_lock rnd (set_lock lock' m).

(** [if (cond) { printf(message); return 1; }] *)
Definition fail_if (cond : machine -> bool) (message : string) : statement :=
  fun m => if cond m then failed message m else Running m.

(** The statements of [main()], in order; [rnd] stands for the sequence
    [random()] gives after [srandom(time(NULL))]. *)
Definition main_body (rnd : nat -> Z) : statement :=
  set_pads ;;
  S_INIT_LOCK ;;
  check_pads ;;
  fail_if (fun m => negb (S_LOCK_FREE m))
          "S_LOCK_TEST: failed, lock not initialized\n" ;;
  S_LOCK rnd ;;
  check_pads ;;
  fail_if S_LOCK_FREE "S_LOCK_TEST: failed, lock not locked\n" ;;
  S_UNLOCK ;;
  check_pads ;;
  fail_if (fun m => negb (S_LOCK_FREE m))
          "S_LOCK_TEST: failed, lock not unlocked\n" ;;
  S_LOCK rnd ;;
  check_pads ;;
  fail_if S_LOCK_FREE "S_LOCK_TEST: failed, lock not re-locked\n" ;;
  printf "S_LOCK_TEST: this will print %d stars and then\n" [NUM_DELAYS] ;;
  printf "             exit with a 'stuck spinlock' message\n" [] ;;
  printf "             if S_LOCK() and TAS() are working.\n" [] ;;
  call_s_lock rnd ;;
  failed "S_LOCK_TEST: failed, lock not locked\n".

(** The process at its start: [test_lock] is a zeroed global and
    [spins_per_delay] has its initial value. *)
Definition initial_machine : machine :=
  mkMachine (mkTestLock 0 0 0) initial_globals 0 [].

Definition main (rnd : nat -> Z) : result :=
  main_body rnd initial_machine.

End SelfTest.

(** * Properties *)

(** ** C int arithmetic *)

Lemma wrap_in_range z : CInt.in_range z -> CInt.wrap z = z.
Proof.
  unfold CInt.in_range, CInt.INT_MIN, CInt.INT_MAX, CInt.wrap. intros H.
  rewrite Z.mod_small by lia. lia.
Qed.

Lemma Min_min x y : CInt.Min x y = Z.min x y.
Proof. unfold CInt.Min. destruct (Z.ltb_spec x y); lia. Qed.

Lemma Max_max x y : CInt.Max x y = Z.max x y.
Proof. unfold CInt.Max. rewrite Z.gtb_ltb. destruct (Z.ltb_spec y x); lia. Qed.

Ltac int_range :=
  unfold CInt.in_range, CInt.INT_MIN, CInt.INT_MAX in *; lia.

(** ** The random increase *)

(** The conversion of the rational expression, as integer division. *)
Lemma random_increase_div cur r :
  0 <= cur -> 0 <= r ->
  random_increase cur r
  = (2 * cur * r + MAX_RANDOM_VALUE) / (2 * MAX_RANDOM_VALUE).
Proof.
  intros Hc Hr.
  set (rhs := (2 * cur * r + MAX_RANDOM_VALUE) / (2 * MAX_RANDOM_VALUE)).
  unfold random_increase, double_to_int, random_fraction, MAX_RANDOM_VALUE.
  cbn. subst rhs. unfold MAX_RANDOM_VALUE.
  rewrite Z.quot_div_nonneg by nia.
  f_equal. lia.
Qed.

(** The exact value of the expression is never within
    1/(2*MAX_RANDOM_VALUE) of an integer: the numerator below is odd and
    the denominator even. *)
Lemma increase_margin cur r :
  1 <= (2 * cur * r + MAX_RANDOM_VALUE) mod (2 * MAX_RANDOM_VALUE)
    <= 2 * MAX_RANDOM_VALUE - 1.
Proof.
  unfold MAX_RANDOM_VALUE.
  replace (2 * cur * r) with (2 * (cur * r)) by ring.
  generalize (cur * r); intros p.
  pose proof (Z.mod_pos_bound (2 * p + 2147483647) (2 * 2147483647)
                ltac:(lia)) as Hb.
  assert ((2 * p + 2147483647) mod (2 * 2147483647) <> 0).
  { intros H0. apply Z.mod_divide in H0; [|lia]. destruct H0 as [k Hk].
    assert (2147483647 = 2 * (k * 2147483647 - p))
      by (rewrite Z.mul_sub_distr_l; lia).
    lia. }
  lia.
Qed.

Lemma random_increase_bounds cur r :
  0 <= cur -> 0 <= r <= MAX_RANDOM_VALUE ->
  0 <= random_increase cur r <= cur.
Proof.
  intros Hc Hr. rewrite random_increase_div by lia.
  unfold MAX_RANDOM_VALUE in *. split.
  - apply Z.div_pos; nia.
  - apply Z.lt_succ_r. apply Z.div_lt_upper_bound; [lia|]. nia.
Qed.

(** The increase is within one half of [cur_delay * random() / MAX]. *)
Lemma random_increase_nearest cur r :
  0 <= cur -> 0 <= r <= MAX_RANDOM_VALUE ->
  2 * MAX_RANDOM_VALUE * random_increase cur r - MAX_RANDOM_VALUE
    <= 2 * cur * r
    < 2 * MAX_RANDOM_VALUE * random_increase cur r + MAX_RANDOM_VALUE.
Proof.
  intros Hc Hr. rewrite random_increase_div by lia.
  unfold MAX_RANDOM_VALUE in *.
  pose proof (Z.div_mod (2 * cur * r + 2147483647) (2 * 2147483647)
                ltac:(lia)) as Hd.
  pose proof (Z.mod_pos_bound (2 * cur * r + 2147483647) (2 * 2147483647)
                ltac:(lia)) as Hb.
  lia.
Qed.

Lemma next_delay_unfold cur r :
  1 <= cur <= MAX_DELAY_MSEC -> 0 <= r <= MAX_RANDOM_VALUE ->
  next_delay cur r
  = if cur + random_increase cur r >? MAX_DELAY_MSEC
    then MIN_DELAY_MSEC else cur + random_increase cur r.
Proof.
  intros Hc Hr. unfold next_delay, CInt.add.
  pose proof (random_increase_bounds cur r ltac:(lia) Hr) as Hi.
  unfold MAX_DELAY_MSEC in *.
  rewrite wrap_in_range by int_range. reflexivity.
Qed.

Lemma next_delay_range cur r :
  delay_in_range cur -> 0 <= r <= MAX_RANDOM_VALUE ->
  delay_in_range (next_delay cur r).
Proof.
  unfold delay_in_range. intros Hc Hr.
  rewrite next_delay_unfold by (unfold MIN_DELAY_MSEC in *; lia).
  pose proof (random_increase_bounds cur r
                ltac:(unfold MIN_DELAY_MSEC in *; lia) Hr) as Hi.
  unfold MAX_DELAY_MSEC, MIN_DELAY_MSEC in *.
  destruct (Z.gtb_spec (cur + random_increase cur r) 1000); lia.
Qed.

Lemma nearest_of_bounds (d a r' : Z) :
  2 * 2147483647 * a - 2147483647 <= 2 * d * r'
    <= 2 * 2147483647 * a + 2147483647 ->
  BackoffSequencer.nearest_integer (inject_Z d * (r' # 2147483647))%Q a.
Proof.
  intros H. unfold BackoffSequencer.nearest_integer.
  apply Qabs_Qle_condition.
  split; unfold Qle, Qminus, Qplus, Qmult, Qopp, inject_Z; cbn [Qnum Qden];
    rewrite ?Pos.mul_1_l, ?Pos.mul_1_r; lia.
Qed.

(** Each delay the code computes is one the rule of section 4.2 allows.
    The draw [random() = MAX_RANDOM_VALUE] makes the fraction of the code
    equal to one; the delay it gives, twice the current one, is also the
    one of the fraction just below. *)
Lemma next_delay_step d r :
  delay_in_range d -> 0 <= r <= MAX_RANDOM_VALUE ->
  BackoffSequencer.step d (next_delay d r).
Proof.
  unfold delay_in_range. intros Hd Hr.
  rewrite next_delay_unfold by (unfold MIN_DELAY_MSEC in *; lia).
  pose proof (random_increase_bounds d r
                ltac:(unfold MIN_DELAY_MSEC in *; lia) Hr) as Hb.
  pose proof (random_increase_nearest d r
                ltac:(unfold MIN_DELAY_MSEC in *; lia) Hr) as Hn.
  unfold MAX_DELAY_MSEC, MIN_DELAY_MSEC, MAX_RANDOM_VALUE in *.
  set (r' := Z.min r 2147483646).
  apply (BackoffSequencer.step_grow d (r' # 2147483647)%Q
           (random_increase d r)).
  - lia.
  - unfold Qle; cbn [Qnum Qden]; lia.
  - unfold Qlt; cbn [Qnum Qden]; lia.
  - apply nearest_of_bounds. subst r'.
    destruct (Z.eq_dec r 2147483647) as [-> | Hne].
    + rewrite Z.min_r by lia. nia.
    + rewrite Z.min_l by lia. lia.
Qed.

Lemma delays_from_range rs : forall cur,
  delay_in_range cur ->
  Forall (fun r => 0 <= r <= MAX_RANDOM_VALUE) rs ->
  Forall delay_in_range (delays_from cur rs).
Proof.
  induction rs as [|r rs IH]; intros cur Hc Hrs; cbn [delays_from].
  - constructor.
  - inversion Hrs as [|? ? Hr Hrs']; subst.
    constructor.
    + apply next_delay_range; assumption.
    + apply IH; [apply next_delay_range|]; assumption.
Qed.

(** ** The adjustment *)

Lemma adjust_no_sleep g :
  CInt.in_range (spins_per_delay g) ->
  spins_per_delay g <= MAX_SPINS_PER_DELAY ->
  spins_per_delay (adjust_spins_per_delay 0 g)
  = Z.min (spins_per_delay g + 100) MAX_SPINS_PER_DELAY.
Proof.
  intros Hr Hle. unfold adjust_spins_per_delay, MAX_SPINS_PER_DELAY in *.
  cbn [Z.eqb].
  destruct (Z.ltb_spec (spins_per_delay g) 1000) as [Hlt|Hge].
  - cbn [spins_per_delay]. unfold CInt.add.
    rewrite wrap_in_range by int_range. apply Min_min.
  - lia.
Qed.

Lemma adjust_slept cur g :
  cur <> 0 ->
  MIN_SPINS_PER_DELAY <= spins_per_delay g <= MAX_SPINS_PER_DELAY ->
  spins_per_delay (adjust_spins_per_delay cur g)
  = Z.max (spins_per_delay g - 1) MIN_SPINS_PER_DELAY.
Proof.
  intros Hc Hr. unfold adjust_spins_per_delay.
  unfold MIN_SPINS_PER_DELAY, MAX_SPINS_PER_DELAY in *.
  destruct (Z.eqb_spec cur 0) as [E|_]; [contradiction|].
  destruct (Z.gtb_spec (spins_per_delay g) 10) as [Hgt|Hle].
  - cbn [spins_per_delay]. unfold CInt.sub.
    rewrite wrap_in_range by int_range. apply Max_max.
  - lia.
Qed.

Lemma adjust_bounds cur g :
  MIN_SPINS_PER_DELAY <= spins_per_delay g <= MAX_SPINS_PER_DELAY ->
  MIN_SPINS_PER_DELAY
    <= spins_per_delay (adjust_spins_per_delay cur g)
    <= MAX_SPINS_PER_DELAY.
Proof.
  intros Hr. destruct (Z.eq_dec cur 0) as [-> | Hne].
  - rewrite adjust_no_sleep;
      unfold MIN_SPINS_PER_DELAY, MAX_SPINS_PER_DELAY in *;
      [lia | int_range | lia].
  - rewrite adjust_slept by assumption.
    unfold MIN_SPINS_PER_DELAY, MAX_SPINS_PER_DELAY in *. lia.
Qed.

Lemma adjust_above_max g :
  MAX_SPINS_PER_DELAY <= spins_per_delay g ->
  adjust_spins_per_delay 0 g = g.
Proof.
  intros H. unfold adjust_spins_per_delay. cbn [Z.eqb].
  destruct (Z.ltb_spec (spins_per_delay g) MAX_SPINS_PER_DELAY);
    [lia | reflexivity].
Qed.

(** ** The loop *)

Lemma initial_counters g : counters_invariant g initial_locals.
Proof.
  constructor; unfold remaining, spin_budget, NUM_DELAYS; cbn; lia.
Qed.

Lemma initial_backoff : backoff_invariant initial_locals.
Proof. constructor; cbn; constructor. Qed.

Lemma schedule_push d log :
  BackoffSequencer.schedule log ->
  match log with
  | [] => d = MIN_DELAY_MSEC
  | d0 :: _ => BackoffSequencer.step d0 d
  end ->
  BackoffSequencer.schedule (d :: log).
Proof.
  intros Hs Hd. destruct log as [|d0 log].
  - subst d. apply BackoffSequencer.schedule_one.
    apply BackoffSequencer.step_first. reflexivity.
  - apply BackoffSequencer.schedule_cons; assumption.
Qed.

Lemma remaining_positive g l : counters_invariant g l -> 1 <= remaining g l.
Proof.
  intros [Hs Hd _ _]. unfold remaining, NUM_DELAYS in *.
  assert (1 * spin_budget g <= (1000 + 1 - delays l) * spin_budget g)
    by (apply Z.mul_le_mono_nonneg_r; lia).
  lia.
Qed.

Section Loop.

Variable env : environment.
Variable g : globals.

Ltac open_iteration l :=
  unfold loop_iteration, s_lock_stuck;
  cbn [spins delays cur_delay tas_calls random_calls slept];
  destruct (Z.eqb_spec (TAS env (tas_calls l)) 0).

Lemma iteration_leave l l' :
  loop_iteration env g l = Leave l' ->
  TAS env (tas_calls l) = 0
  /\ l' = mkLocals (spins l) (delays l) (cur_delay l)
                   (S (tas_calls l)) (random_calls l) (slept l).
Proof.
  open_iteration l.
  - intros H; injection H as <-. split; [assumption | reflexivity].
  - destruct (_ >=? _); [destruct (_ >? _)|]; discriminate.
Qed.

(** The sleeping part of the invariant needs [random()] in its range
    and nothing else. *)
Lemma iteration_backoff l l' :
  random_ok env ->
  backoff_invariant l ->
  loop_iteration env g l = Continue l' ->
  backoff_invariant l'.
Proof.
  intros Hrandom [Hcur Hr Hsch]. open_iteration l; [discriminate|].
  destruct (_ >=? _).
  - destruct (_ >? _); [discriminate|].
    intros E; injection E as <-.
    set (cur := if cur_delay l =? 0 then MIN_DELAY_MSEC else cur_delay l).
    assert (Hcur' : delay_in_range cur
                    /\ match slept l with
                       | [] => cur = MIN_DELAY_MSEC
                       | d0 :: _ => BackoffSequencer.step d0 cur
                       end).
    { subst cur. destruct (slept l) as [|d0 log].
      - rewrite Hcur. cbn.
        unfold delay_in_range, MIN_DELAY_MSEC, MAX_DELAY_MSEC. lia.
      - destruct Hcur as [Hin Hst].
        destruct (Z.eqb_spec (cur_delay l) 0) as [E0|_];
          [unfold delay_in_range, MIN_DELAY_MSEC in Hin; lia|].
        split; assumption. }
    destruct Hcur' as [Hin Hst].
    constructor; cbn [cur_delay slept].
    + split; [apply next_delay_range | apply next_delay_step];
        solve [exact Hin | apply Hrandom].
    + constructor; assumption.
    + apply schedule_push; assumption.
  - intros E; injection E as <-. constructor; assumption.
Qed.

Lemma backoff_left l :
  backoff_invariant l ->
  backoff_invariant (mkLocals (spins l) (delays l) (cur_delay l)
                              (S (tas_calls l)) (random_calls l) (slept l)).
Proof. intros [Hcur Hr Hsch]. constructor; assumption. Qed.

Lemma iteration_panic_backoff l l' :
  backoff_invariant l ->
  loop_iteration env g l = Panic l' ->
  backoff_invariant l'.
Proof.
  intros [Hcur Hr Hsch]. open_iteration l; [discriminate|].
  destruct (_ >=? _); [|discriminate].
  destruct (_ >? _); [|discriminate].
  intros E; injection E as <-. constructor; assumption.
Qed.

(** What holds before every iteration holds before the last one. *)
Lemma loop_rule (P : locals -> Prop) :
  (forall l l', P l -> loop_iteration env g l = Continue l' -> P l') ->
  forall fuel l, P l ->
  match s_lock_loop fuel env g l with
  | Left_loop l' => exists l0, P l0 /\ loop_iteration env g l0 = Leave l'
  | Stuck_in_loop l' => exists l0, P l0 /\ loop_iteration env g l0 = Panic l'
  | Still_looping => True
  end.
Proof.
  intros Hstep. induction fuel as [|fuel IH]; intros l Hl;
    cbn [s_lock_loop]; [exact I|].
  destruct (loop_iteration env g l) as [l1|l1|l1] eqn:E.
  - apply IH. exact (Hstep l l1 Hl E).
  - exists l. split; assumption.
  - exists l. split; assumption.
Qed.

(** More fuel does not change a result that was reached. *)
Lemma loop_fuel_mono fuel : forall l fuel',
  (fuel <= fuel')%nat ->
  s_lock_loop fuel env g l <> Still_looping ->
  s_lock_loop fuel' env g l = s_lock_loop fuel env g l.
Proof.
  induction fuel as [|fuel IH]; intros l fuel' Hle Hres.
  - cbn in Hres. congruence.
  - destruct fuel' as [|fuel']; [lia|].
    cbn [s_lock_loop] in *.
    destruct (loop_iteration env g l); try reflexivity.
    apply IH; [lia | exact Hres].
Qed.

(** While every [TAS] finds the lock set, the loop is not left. *)
Lemma loop_locked fuel : forall l l',
  (forall k, TAS env k <> 0) ->
  s_lock_loop fuel env g l <> Left_loop l'.
Proof.
  induction fuel as [|fuel IH]; intros l l' Hlocked; cbn [s_lock_loop];
    [discriminate|].
  destruct (loop_iteration env g l) as [l1|l1|l1] eqn:E; try discriminate.
  - apply IH, Hlocked.
  - destruct (iteration_leave l l1 E) as [E0 _].
    exfalso. exact (Hlocked _ E0).
Qed.

(** The lock is free at the first try. *)
Lemma loop_first_try fuel :
  TAS env 0 = 0 ->
  s_lock_loop (S fuel) env g initial_locals
  = Left_loop (mkLocals 0 0 0 1 0 []).
Proof.
  intros H. cbn [s_lock_loop]. unfold loop_iteration.
  cbn [initial_locals spins delays cur_delay tas_calls random_calls slept].
  rewrite H. reflexivity.
Qed.

Hypothesis Hspd : CInt.in_range (spins_per_delay g).

Lemma iteration_counters l l' :
  counters_invariant g l ->
  loop_iteration env g l = Continue l' ->
  counters_invariant g l' /\ remaining g l' < remaining g l.
Proof.
  intros Hinv. pose proof (remaining_positive g l Hinv) as Hpos.
  destruct Hinv as [Hs Hd Hc Hcalls].
  open_iteration l; [discriminate|].
  unfold CInt.add, remaining, spin_budget in *.
  rewrite (wrap_in_range (spins l + 1)) by int_range.
  rewrite (wrap_in_range (delays l + 1))
    by (unfold NUM_DELAYS in *; int_range).
  remember (Z.max 1 (spins_per_delay g)) as K in *.
  destruct (Z.geb_spec (spins l + 1) (spins_per_delay g)) as [Hge|Hlt].
  - destruct (Z.gtb_spec (delays l + 1) NUM_DELAYS) as [Hgt|Hle];
      [discriminate|].
    intros E; injection E as <-.
    split; [constructor|];
      unfold remaining, spin_budget, NUM_DELAYS in *;
      cbn [spins delays cur_delay tas_calls slept length];
      rewrite <- ?HeqK, ?Nat2Z.inj_succ; lia.
  - intros E; injection E as <-.
    split; [constructor|];
      unfold remaining, spin_budget, NUM_DELAYS in *;
      cbn [spins delays cur_delay tas_calls slept length];
      rewrite <- ?HeqK, ?Nat2Z.inj_succ; lia.
Qed.

Lemma iteration_panic l l' :
  counters_invariant g l ->
  loop_iteration env g l = Panic l' ->
  delays l' = NUM_DELAYS + 1
  /\ Z.of_nat (length (slept l')) = NUM_DELAYS
  /\ tas_calls l' = S (tas_calls l).
Proof.
  intros [Hs Hd Hc Hcalls]. open_iteration l; [discriminate|].
  unfold CInt.add.
  rewrite (wrap_in_range (delays l + 1))
    by (unfold NUM_DELAYS in *; int_range).
  destruct (_ >=? _); [|discriminate].
  destruct (Z.gtb_spec (delays l + 1) NUM_DELAYS) as [Hgt|Hle];
    [|discriminate].
  intros E; injection E as <-. cbn [delays slept tas_calls].
  repeat split; lia.
Qed.

(** The loop is over before [remaining] iterations have been made. *)
Lemma loop_terminates fuel : forall l,
  counters_invariant g l ->
  remaining g l < Z.of_nat fuel ->
  s_lock_loop fuel env g l <> Still_looping.
Proof.
  induction fuel as [|fuel IH]; intros l Hinv Hrem.
  - exfalso. pose proof (remaining_positive g l Hinv). lia.
  - cbn [s_lock_loop].
    destruct (loop_iteration env g l) as [l'|l'|l'] eqn:E;
      try discriminate.
    destruct (iteration_counters l l' Hinv E) as [Hinv' Hdec].
    apply IH; [exact Hinv'|]. rewrite Nat2Z.inj_succ in Hrem. lia.
Qed.

Lemma initial_remaining :
  remaining g initial_locals < Z.of_nat (iteration_bound g).
Proof.
  unfold remaining, iteration_bound, spin_budget, initial_locals, NUM_DELAYS.
  cbn [spins delays]. rewrite Nat2Z.inj_succ, Z2Nat.id by lia. lia.
Qed.

Lemma loop_counters fuel :
  match s_lock_loop fuel env g initial_locals with
  | Left_loop l' =>
      exists l0, counters_invariant g l0
                 /\ loop_iteration env g l0 = Leave l'
  | Stuck_in_loop l' =>
      exists l0, counters_invariant g l0
                 /\ loop_iteration env g l0 = Panic l'
  | Still_looping => True
  end.
Proof.
  apply (loop_rule (counters_invariant g)).
  - intros l l' Hl E. apply (iteration_counters l l' Hl E).
  - apply initial_counters.
Qed.

Lemma calls_bound l :
  counters_invariant g l ->
  (S (tas_calls l) <= iteration_bound g)%nat.
Proof.
  intros Hinv. pose proof (remaining_positive g l Hinv) as Hpos.
  destruct Hinv as [_ _ _ Hcalls].
  unfold iteration_bound, spin_budget, NUM_DELAYS in *.
  apply le_n_S. apply Nat2Z.inj_le. rewrite Z2Nat.id by lia. lia.
Qed.

End Loop.

Lemma loop_backoff env g fuel :
  random_ok env ->
  match s_lock_loop fuel env g initial_locals with
  | Left_loop l' | Stuck_in_loop l' => backoff_invariant l'
  | Still_looping => True
  end.
Proof.
  intros Hrandom.
  pose proof (loop_rule env g backoff_invariant
                (fun l l' Hl E => iteration_backoff env g l l' Hrandom Hl E)
                fuel initial_locals initial_backoff) as H.
  destruct (s_lock_loop fuel env g initial_locals) as [l'|l'|];
    [| |exact I]; destruct H as (l0 & Hl0 & E).
  - destruct (iteration_leave env g l0 l' E) as [_ ->].
    apply backoff_left, Hl0.
  - apply (iteration_panic_backoff env g l0 l' Hl0 E).
Qed.

(** ** s_lock() as a whole *)

Lemma s_lock_acquired env g g' l :
  s_lock env g = Acquired g' l ->
  g' = adjust_spins_per_delay (cur_delay l) g.
Proof.
  unfold s_lock.
  destruct (s_lock_loop (iteration_bound g) env g initial_locals);
    intros H; try discriminate.
  injection H as <- <-. reflexivity.
Qed.

Lemma s_lock_counters env g :
  CInt.in_range (spins_per_delay g) ->
  match s_lock env g with
  | Acquired g' l =>
      0 <= delays l <= NUM_DELAYS
      /\ Z.of_nat (length (slept l)) = delays l
      /\ (tas_calls l <= iteration_bound g)%nat
  | Stuck g' l =>
      g' = g
      /\ delays l = NUM_DELAYS + 1
      /\ Z.of_nat (length (slept l)) = NUM_DELAYS
      /\ (tas_calls l <= iteration_bound g)%nat
  | Diverges => False
  end.
Proof.
  intros Hspd. unfold s_lock.
  pose proof (loop_counters env g Hspd (iteration_bound g)) as H.
  pose proof (loop_terminates env g Hspd (iteration_bound g) initial_locals
                (initial_counters g) (initial_remaining g)) as Hterm.
  destruct (s_lock_loop (iteration_bound g) env g initial_locals)
    as [l'|l'|]; [| |congruence]; destruct H as (l0 & Hl0 & E).
  - destruct (iteration_leave env g l0 l' E) as [_ ->].
    pose proof (calls_bound g l0 Hl0) as Hb.
    destruct Hl0 as [Hs Hd Hc _]. cbn [delays slept tas_calls].
    repeat split; try lia.
  - destruct (iteration_panic env g l0 l' Hl0 E) as (Hd & Hc & Ht).
    pose proof (calls_bound g l0 Hl0) as Hb.
    repeat split; try assumption; lia.
Qed.

Lemma s_lock_backoff env g :
  random_ok env ->
  match s_lock env g with
  | Acquired _ l | Stuck _ l => backoff_invariant l
  | Diverges => True
  end.
Proof.
  intros Hrandom. unfold s_lock.
  pose proof (loop_backoff env g (iteration_bound g) Hrandom) as H.
  destruct (s_lock_loop (iteration_bound g) env g initial_locals);
    [exact H | exact H | exact I].
Qed.

Lemma s_lock_first_try env g :
  TAS env 0 = 0 ->
  s_lock env g
  = Acquired (adjust_spins_per_delay 0 g) (mkLocals 0 0 0 1 0 []).
Proof.
  intros H. unfold s_lock, iteration_bound.
  rewrite loop_first_try by exact H. reflexivity.
Qed.

(** [cur_delay] is zero at the end exactly when no sleep was made. *)
Lemma backoff_cur_delay l :
  backoff_invariant l -> (cur_delay l = 0 <-> slept l = []).
Proof.
  intros [Hcur _ _]. destruct (slept l) as [|d log].
  - split; [reflexivity | intros _; exact Hcur].
  - destruct Hcur as [Hin _]. unfold delay_in_range, MIN_DELAY_MSEC in Hin.
    split; [lia | discriminate].
Qed.

(** ** The atomic flag *)

Lemma tas_sets lock : snd (AtomicFlag.tas lock) <> 0.
Proof.
  unfold AtomicFlag.tas. cbn [snd]. intros H.
  apply Z.lor_eq_0_iff in H. destruct H as [_ H]. discriminate H.
Qed.

Lemma tas_success lock :
  (fst (AtomicFlag.tas lock) =? 0) = AtomicFlag.isFree lock.
Proof.
  unfold AtomicFlag.tas, AtomicFlag.isFree. cbn [fst].
  destruct (lock =? 0); reflexivity.
Qed.

Lemma history_firstn n : forall lock cs,
  firstn n (AtomicFlag.history lock cs)
  = AtomicFlag.history lock (firstn n cs).
Proof.
  induction n as [|n IH]; intros lock cs; [reflexivity|].
  destruct cs as [|[who|who] cs]; cbn; [reflexivity | |];
    rewrite IH; reflexivity.
Qed.

Lemma history_skipn i : forall lock cs,
  skipn i (AtomicFlag.history lock cs)
  = AtomicFlag.history (AtomicFlag.final lock (firstn i cs)) (skipn i cs).
Proof.
  induction i as [|i IH]; intros lock cs; [reflexivity|].
  destruct cs as [|[who|who] cs]; cbn; [reflexivity | |];
    rewrite IH; reflexivity.
Qed.

(** Without a release, only a free flag can be acquired, and only once. *)
Lemma successes_without_release cs : forall lock,
  forallb (fun e => negb (AtomicFlag.is_release e))
          (AtomicFlag.history lock cs) = true ->
  (AtomicFlag.successes (AtomicFlag.history lock cs)
   <= if AtomicFlag.isFree lock then 1 else 0)%nat.
Proof.
  unfold AtomicFlag.successes.
  induction cs as [|[who|who] cs IH]; intros lock Hno.
  - cbn. destruct (AtomicFlag.isFree lock); lia.
  - cbn [AtomicFlag.history] in *.
    pose proof (tas_sets lock) as Hset. pose proof (tas_success lock) as Hok.
    destruct (AtomicFlag.tas lock) as [ret lock'] eqn:Et.
    cbn [fst snd] in *. cbn [forallb] in Hno.
    apply andb_prop in Hno. destruct Hno as [_ Hno].
    specialize (IH lock' Hno).
    assert (Hbusy : AtomicFlag.isFree lock' = false)
      by (unfold AtomicFlag.isFree; apply Z.eqb_neq; exact Hset).
    rewrite Hbusy in IH. cbn [filter AtomicFlag.is_success].
    rewrite Hok. destruct (AtomicFlag.isFree lock); cbn [length]; lia.
  - cbn in Hno. discriminate Hno.
Qed.

(** ** The sample environments *)

Lemma sample_random_ok tas : random_ok (mkEnv tas sample_random).
Proof.
  intros k. cbn [random]. unfold sample_random, MAX_RANDOM_VALUE.
  pose proof (Z.mod_pos_bound (Z.of_nat k * 1103515245 + 12345) 2147483648
                ltac:(lia)).
  lia.
Qed.

Example s_lock_free :
  s_lock env_free (mkGlobals 100)
  = Acquired (mkGlobals 200) (mkLocals 0 0 0 1 0 []).
Proof. vm_compute. reflexivity. Qed.

Example s_lock_contended_once :
  s_lock (env_contended 11) (mkGlobals 11)
  = Acquired (mkGlobals 10) (mkLocals 0 1 1 12 1 [1]).
Proof. vm_compute. reflexivity. Qed.

Example s_lock_contended_four_sleeps :
  s_lock (env_contended 45) (mkGlobals 10)
  = Acquired (mkGlobals 10) (mkLocals 5 4 3 46 4 [2; 2; 1; 1]).
Proof. vm_compute. reflexivity. Qed.

Example s_lock_locked :
  match s_lock env_locked (mkGlobals 1) with
  | Stuck g l =>
      (spins_per_delay g, delays l, tas_calls l, length (slept l),
       firstn 10 (rev (slept l)))
      = (1, 1001, 1001%nat, 1000%nat, [1; 1; 2; 2; 3; 3; 5; 5; 8; 9])
  | _ => False
  end.
Proof. vm_compute. reflexivity. Qed.

Example random_increase_values :
  (random_increase 1 0, random_increase 1 1073741823,
   random_increase 1 1073741824, random_increase 1 2147483647,
   random_increase 600 2147483647)
  = (0, 0, 1, 1, 600)
  /\ (next_delay 600 2147483647, next_delay 500 2147483647,
      next_delay 3 1073741824)
     = (1, 1000, 5).
Proof. vm_compute. split; reflexivity. Qed.

Example three_processes_history :
  AtomicFlag.history 0 three_processes
  = [AtomicFlag.Tried 1 true; AtomicFlag.Tried 2 false;
     AtomicFlag.Released 1;
     AtomicFlag.Tried 3 true; AtomicFlag.Tried 2 false;
     AtomicFlag.Tried 1 false;
     AtomicFlag.Released 3; AtomicFlag.Tried 2 true].
Proof. reflexivity. Qed.

(** ** Counting the tries *)

Lemma initial_tries env g : tries_invariant env g initial_locals.
Proof.
  constructor.
  - apply initial_counters.
  - cbn. lia.
  - intros k Hk. cbn in Hk. lia.
Qed.

Section Tries.

Variable env : environment.
Variable g : globals.
Hypothesis Hspd : CInt.in_range (spins_per_delay g).

Lemma failed_one_more l :
  TAS env (tas_calls l) <> 0 ->
  (forall k, (k < tas_calls l)%nat -> TAS env k <> 0) ->
  forall k, (k < S (tas_calls l))%nat -> TAS env k <> 0.
Proof.
  intros Hnow Hbefore k Hk.
  destruct (Nat.eq_dec k (tas_calls l)) as [-> | Hne];
    [exact Hnow | apply Hbefore; lia].
Qed.

Lemma iteration_tries l l' :
  tries_invariant env g l ->
  loop_iteration env g l = Continue l' ->
  tries_invariant env g l'.
Proof.
  intros [Hc Hn Hf] E.
  destruct (iteration_counters env g Hspd l l' Hc E) as [Hc' _].
  constructor; [exact Hc'| |]; clear Hc'; destruct Hc as [Hs Hd _ _];
    revert E; unfold loop_iteration, s_lock_stuck;
    cbn [spins delays cur_delay tas_calls random_calls slept];
    destruct (Z.eqb_spec (TAS env (tas_calls l)) 0) as [|Hfail];
    try discriminate;
    unfold CInt.add, spin_budget in *;
    rewrite (wrap_in_range (spins l + 1)) by int_range;
    rewrite (wrap_in_range (delays l + 1))
      by (unfold NUM_DELAYS in *; int_range);
    destruct (Z.geb_spec (spins l + 1) (spins_per_delay g));
    try destruct (Z.gtb_spec (delays l + 1) NUM_DELAYS);
    try discriminate;
    intros E; injection E as <-;
    cbn [spins delays tas_calls];
    try (apply failed_one_more; assumption);
    rewrite Nat2Z.inj_succ; lia.
Qed.

Lemma loop_tries fuel :
  match s_lock_loop fuel env g initial_locals with
  | Left_loop l' =>
      exists l0, tries_invariant env g l0
                 /\ loop_iteration env g l0 = Leave l'
  | Stuck_in_loop l' =>
      exists l0, tries_invariant env g l0
                 /\ loop_iteration env g l0 = Panic l'
  | Still_looping => True
  end.
Proof.
  apply (loop_rule env g (tries_invariant env g)).
  - exact iteration_tries.
  - apply initial_tries.
Qed.

Lemma panic_tries l l' :
  tries_invariant env g l ->
  loop_iteration env g l = Panic l' ->
  Z.of_nat (tas_calls l') = (NUM_DELAYS + 1) * spin_budget g
  /\ (forall k, (k < tas_calls l')%nat -> TAS env k <> 0).
Proof.
  intros [[Hs Hd _ _] Hn Hf].
  unfold loop_iteration, s_lock_stuck.
  cbn [spins delays cur_delay tas_calls random_calls slept].
  destruct (Z.eqb_spec (TAS env (tas_calls l)) 0) as [|Hfail];
    [discriminate|].
  unfold CInt.add, spin_budget in *.
  rewrite (wrap_in_range (spins l + 1)) by int_range.
  rewrite (wrap_in_range (delays l + 1))
    by (unfold NUM_DELAYS in *; int_range).
  destruct (Z.geb_spec (spins l + 1) (spins_per_delay g)); [|discriminate].
  destruct (Z.gtb_spec (delays l + 1) NUM_DELAYS); [|discriminate].
  intros E; injection E as <-. cbn [tas_calls]. split.
  - rewrite Nat2Z.inj_succ. unfold NUM_DELAYS in *.
    assert (Hfull : delays l = 1000) by lia. rewrite Hfull in Hn. lia.
  - apply failed_one_more; assumption.
Qed.

End Tries.

(** What the outcome of a call tells about the tries. *)
Lemma s_lock_tries env g :
  CInt.in_range (spins_per_delay g) ->
  match s_lock env g with
  | Acquired _ l =>
      exists n, tas_calls l = S n /\ first_free env n
                /\ Z.of_nat n = delays l * spin_budget g + spins l
                /\ 0 <= spins l < spin_budget g
                /\ 0 <= delays l <= NUM_DELAYS
                /\ Z.of_nat (length (slept l)) = delays l
  | Stuck _ l =>
      Z.of_nat (tas_calls l) = (NUM_DELAYS + 1) * spin_budget g
      /\ (forall k, (k < tas_calls l)%nat -> TAS env k <> 0)
  | Diverges => False
  end.
Proof.
  intros Hspd. pose proof (s_lock_counters env g Hspd) as Hc.
  pose proof (loop_tries env g Hspd (iteration_bound g)) as H.
  unfold s_lock in *.
  destruct (s_lock_loop (iteration_bound g) env g initial_locals)
    as [l'|l'|]; [| |exact Hc]; destruct H as (l0 & Hl0 & E).
  - destruct (iteration_leave env g l0 l' E) as [E0 ->].
    destruct Hl0 as [[Hs Hd Hlen _] Hn Hf].
    exists (tas_calls l0). cbn [tas_calls spins delays slept].
    repeat split; try assumption; lia.
  - exact (panic_tries env g Hspd l0 l' Hl0 E).
Qed.

Lemma first_free_unique env n m :
  first_free env n -> first_free env m -> n = m.
Proof.
  intros [Hn Hbn] [Hm Hbm].
  destruct (Nat.lt_trichotomy n m) as [Hlt|[Heq|Hgt]]; [|exact Heq|].
  - exfalso. exact (Hbm n Hlt Hn).
  - exfalso. exact (Hbn m Hgt Hm).
Qed.

(** The call that finds the lock free at try [n], in time. *)
Lemma acquired_at_first_free env g n :
  CInt.in_range (spins_per_delay g) ->
  first_free env n ->
  Z.of_nat n < (NUM_DELAYS + 1) * spin_budget g ->
  exists g' l,
    s_lock env g = Acquired g' l
    /\ tas_calls l = S n
    /\ delays l = Z.of_nat n / spin_budget g
    /\ spins l = Z.of_nat n mod spin_budget g
    /\ Z.of_nat (length (slept l)) = Z.of_nat n / spin_budget g.
Proof.
  intros Hspd Hfree Hn. pose proof (s_lock_tries env g Hspd) as H.
  destruct (s_lock env g) as [g' l|g' l|]; [| |contradiction].
  - destruct H as (m & Hm & Hfree' & Hcount & Hs & Hd & Hlen).
    assert (m = n) by (apply (first_free_unique env); assumption).
    subst m. exists g', l.
    assert (Hq : delays l = Z.of_nat n / spin_budget g)
      by (apply (Z.div_unique_pos _ _ _ (spins l)); lia).
    assert (Hr : spins l = Z.of_nat n mod spin_budget g)
      by (apply (Z.mod_unique_pos _ _ (delays l)); lia).
    repeat split; congruence.
  - exfalso. destruct H as [Hcalls Hfail]. destruct Hfree as [H0 _].
    apply (Hfail n); [lia | exact H0].
Qed.

(** The call during which every try fails. *)
Lemma stuck_when_all_fail env g :
  CInt.in_range (spins_per_delay g) ->
  (forall k, TAS env k <> 0) ->
  exists l, s_lock env g = Stuck g l
            /\ length (slept l) = Z.to_nat NUM_DELAYS.
Proof.
  intros Hspd Hfail. pose proof (s_lock_tries env g Hspd) as H.
  pose proof (s_lock_counters env g Hspd) as Hc.
  destruct (s_lock env g) as [g' l|g' l|]; [| |contradiction].
  - exfalso. destruct H as (n & _ & [H0 _] & _). exact (Hfail n H0).
  - destruct Hc as (-> & _ & Hlen & _). exists l.
    split; [reflexivity|]. rewrite <- Hlen. symmetry. apply Nat2Z.id.
Qed.

(** ** The draws behind the delays *)









(** * The claims *)

(** C1 (mutual exclusion).  In every sequence of [tas] and release calls
    made by any number of processes on one flag, taken in the order in
    which the atomic operations take effect and started from any content
    of the flag, a stretch of the history without a release holds at most
    one successful [tas]; so at most one call succeeds between two
    releases. *)
Theorem mutual_exclusion (lock : Z) (cs : list AtomicFlag.call) (i n : nat) :
  forallb (fun e => negb (AtomicFlag.is_release e))
          (AtomicFlag.segment i n (AtomicFlag.history lock cs)) = true ->
  (AtomicFlag.successes (AtomicFlag.segment i n (AtomicFlag.history lock cs))
   <= 1)%nat.
Proof.
  unfold AtomicFlag.segment. rewrite history_skipn, history_firstn.
  intros Hno. apply successes_without_release in Hno.
  destruct (AtomicFlag.isFree _); lia.
Qed.

Lemma mutual_exclusion_witness :
  (AtomicFlag.successes
     (AtomicFlag.segment 3 3 (AtomicFlag.history 0 three_processes))
   <= 1)%nat.
Proof. exact (mutual_exclusion 0 three_processes 3 3 eq_refl). Defined.

(** C2 (stuck detection).  When every [TAS] finds the lock set, s_lock()
    ends in [s_lock_stuck], which does not give control back: the
    adjustment after the loop is not run.  This happens when the counter
    of delays passes [NUM_DELAYS], after exactly 1000 calls of
    [pg_usleep]; and whatever [TAS] answers, [s_lock_stuck] is never
    reached with fewer (or more) sleeps than that. *)
Theorem stuck_detection (env : environment) (g : globals) :
  CInt.in_range (spins_per_delay g) ->
  ((forall k, TAS env k <> 0) ->
   exists l, s_lock env g = Stuck g l
             /\ length (slept l) = 1000%nat
             /\ delays l = NUM_DELAYS + 1)
  /\ (forall g' l, s_lock env g = Stuck g' l ->
        g' = g /\ length (slept l) = Z.to_nat NUM_DELAYS).
Proof.
  intros Hspd. pose proof (s_lock_counters env g Hspd) as H. split.
  - intros Hlocked.
    destruct (s_lock env g) as [g' l|g' l|] eqn:E; [| |contradiction].
    + exfalso. unfold s_lock in E.
      destruct (s_lock_loop (iteration_bound g) env g initial_locals)
        as [l'| |] eqn:El; try discriminate.
      exact (loop_locked env g _ _ _ Hlocked El).
    + destruct H as (-> & Hd & Hc & _). exists l.
      unfold NUM_DELAYS in *. repeat split; lia.
  - intros g' l E. rewrite E in H. destruct H as (-> & _ & Hc & _).
    split; [reflexivity|]. rewrite <- Hc. symmetry. apply Nat2Z.id.
Qed.

Lemma stuck_detection_witness :
  exists l, s_lock env_locked (mkGlobals 10) = Stuck (mkGlobals 10) l
            /\ length (slept l) = 1000%nat
            /\ delays l = NUM_DELAYS + 1.
Proof.
  assert (Hspd : CInt.in_range (spins_per_delay (mkGlobals 10)))
    by (unfold CInt.in_range, CInt.INT_MIN, CInt.INT_MAX; cbn; lia).
  assert (Hlocked : forall k, TAS env_locked k <> 0)
    by (intros k H; discriminate H).
  destruct (stuck_detection env_locked (mkGlobals 10) Hspd) as [H _].
  exact (H Hlocked).
Defined.

(** C3 (bounds).  A [spins_per_delay] within [10, 1000] before a call of
    s_lock() is within [10, 1000] when the call returns, whatever [TAS]
    and [random()] answer, and the call does end; hence the same after
    any number of successive calls. *)
Theorem spins_per_delay_bounds (g : globals) :
  spins_in_bounds g ->
  (forall env,
     match s_lock env g with
     | Acquired g' _ => spins_in_bounds g'
     | Stuck g' _ => g' = g
     | Diverges => False
     end)
  /\ (forall envs g', s_lock_sequence envs g = Some g' -> spins_in_bounds g').
Proof.
  assert (Hone : forall g0 env, spins_in_bounds g0 ->
            match s_lock env g0 with
            | Acquired g' _ => spins_in_bounds g'
            | Stuck g' _ => g' = g0
            | Diverges => False
            end).
  { intros g0 env Hb.
    assert (Hspd : CInt.in_range (spins_per_delay g0))
      by (unfold spins_in_bounds, MIN_SPINS_PER_DELAY,
            MAX_SPINS_PER_DELAY in Hb; int_range).
    pose proof (s_lock_counters env g0 Hspd) as H.
    destruct (s_lock env g0) as [g' l|g' l|] eqn:E.
    - rewrite (s_lock_acquired env g0 g' l E). apply adjust_bounds, Hb.
    - apply H.
    - exact H. }
  intros Hb. split; [intros env; apply Hone, Hb|].
  intros envs. revert g Hb.
  induction envs as [|env envs IH]; intros g Hb g'; cbn [s_lock_sequence].
  - intros E; injection E as <-. exact Hb.
  - specialize (Hone g env Hb).
    destruct (s_lock env g) as [g1 l| |]; try discriminate.
    apply IH, Hone.
Qed.

Lemma spins_per_delay_bounds_witness :
  spins_in_bounds (mkGlobals 11)
  /\ (forall envs g',
        s_lock_sequence envs (mkGlobals 11) = Some g' -> spins_in_bounds g').
Proof.
  assert (Hb : spins_in_bounds (mkGlobals 11))
    by (unfold spins_in_bounds, MIN_SPINS_PER_DELAY, MAX_SPINS_PER_DELAY;
        cbn; lia).
  destruct (spins_per_delay_bounds (mkGlobals 11) Hb) as [_ H].
  split; [exact Hb | exact H].
Defined.

(** C4 (asymmetric adjustment).  With [spins_per_delay] = V and
    10 < V < 1000: a call of s_lock() that finds the lock free after
    fewer than V failed tries returns without a sleep, leaves the loop
    with [cur_delay] = 0 and sets [spins_per_delay] to
    min (V + 100, 1000); a call that finds it free after V failed tries
    or more (and before the bound of [s_lock_stuck]) returns after at
    least one sleep, leaves the loop with [cur_delay] <> 0 and sets
    [spins_per_delay] to max (V - 1, 10).  Every call that returns is of
    one of these two kinds. *)
Theorem asymmetric_adjustment (env : environment) (g : globals) :
  random_ok env ->
  MIN_SPINS_PER_DELAY < spins_per_delay g < MAX_SPINS_PER_DELAY ->
  (forall n,
     first_free env n ->
     Z.of_nat n < spins_per_delay g ->
     exists l,
       s_lock env g
       = Acquired (mkGlobals (Z.min (spins_per_delay g + 100)
                                    MAX_SPINS_PER_DELAY)) l
       /\ slept l = [] /\ cur_delay l = 0)
  /\ (forall n,
        first_free env n ->
        spins_per_delay g <= Z.of_nat n
          < (NUM_DELAYS + 1) * spins_per_delay g ->
        exists l,
          s_lock env g
          = Acquired (mkGlobals (Z.max (spins_per_delay g - 1)
                                       MIN_SPINS_PER_DELAY)) l
          /\ slept l <> [] /\ cur_delay l <> 0)
  /\ match s_lock env g with
     | Acquired g' l =>
         (slept l = [] /\ cur_delay l = 0
          /\ spins_per_delay g'
             = Z.min (spins_per_delay g + 100) MAX_SPINS_PER_DELAY)
         \/ (slept l <> [] /\ cur_delay l <> 0
             /\ spins_per_delay g'
                = Z.max (spins_per_delay g - 1) MIN_SPINS_PER_DELAY)
     | Stuck g' _ => g' = g
     | Diverges => False
     end.
Proof.
  intros Hrandom HV.
  assert (Hspd : CInt.in_range (spins_per_delay g))
    by (unfold MIN_SPINS_PER_DELAY, MAX_SPINS_PER_DELAY in HV; int_range).
  assert (HK : spin_budget g = spins_per_delay g)
    by (unfold spin_budget, MIN_SPINS_PER_DELAY in *; lia).
  assert (Hb : spins_in_bounds g)
    by (unfold spins_in_bounds; lia).
  pose proof (s_lock_backoff env g Hrandom) as Hbk.
  split; [|split].
  - intros n Hfree Hn.
    destruct (acquired_at_first_free env g n Hspd Hfree) as
      (g' & l & E & _ & _ & _ & Hlen).
    { rewrite HK. unfold NUM_DELAYS, MIN_SPINS_PER_DELAY in *. nia. }
    rewrite E in Hbk.
    assert (Hsl : slept l = []).
    { rewrite HK, Z.div_small in Hlen by lia.
      destruct (slept l); [reflexivity | discriminate Hlen]. }
    assert (Hcur : cur_delay l = 0)
      by (apply (backoff_cur_delay l Hbk); exact Hsl).
    exists l. split; [|split; assumption].
    rewrite E. f_equal. rewrite (s_lock_acquired env g g' l E), Hcur.
    rewrite <- (adjust_no_sleep g Hspd ltac:(lia)).
    destruct (adjust_spins_per_delay 0 g). reflexivity.
  - intros n Hfree Hn.
    destruct (acquired_at_first_free env g n Hspd Hfree) as
      (g' & l & E & _ & _ & _ & Hlen).
    { rewrite HK. lia. }
    rewrite E in Hbk.
    assert (Hsl : slept l <> []).
    { intros Hnil. rewrite Hnil, HK in Hlen. cbn [length] in Hlen.
      assert (1 <= Z.of_nat n / spins_per_delay g)
        by (apply Z.div_le_lower_bound;
            unfold MIN_SPINS_PER_DELAY in *; lia).
      lia. }
    assert (Hcur : cur_delay l <> 0)
      by (intros H0; apply Hsl; apply (backoff_cur_delay l Hbk); exact H0).
    exists l. split; [|split; assumption].
    rewrite E. f_equal. rewrite (s_lock_acquired env g g' l E).
    rewrite <- (adjust_slept (cur_delay l) g Hcur Hb).
    destruct (adjust_spins_per_delay (cur_delay l) g). reflexivity.
  - pose proof (s_lock_counters env g Hspd) as Hc.
    destruct (s_lock env g) as [g' l|g' l|] eqn:E; [|apply Hc|exact Hc].
    rewrite (s_lock_acquired env g g' l E).
    pose proof (backoff_cur_delay l Hbk) as Hiff.
    destruct (Z.eq_dec (cur_delay l) 0) as [E0|Hne].
    + left. rewrite E0. repeat split; [apply Hiff, E0|].
      apply adjust_no_sleep; [exact Hspd | lia].
    + right. repeat split; [intros Hs; apply Hne, Hiff, Hs | exact Hne |].
      apply adjust_slept; [exact Hne|]. lia.
Qed.

Lemma asymmetric_adjustment_witness :
  (exists l,
     s_lock (env_contended 5) (mkGlobals 11)
     = Acquired (mkGlobals (Z.min (spins_per_delay (mkGlobals 11) + 100)
                                  MAX_SPINS_PER_DELAY)) l
     /\ slept l = [] /\ cur_delay l = 0)
  /\ (exists l,
        s_lock (env_contended 11) (mkGlobals 11)
        = Acquired (mkGlobals (Z.max (spins_per_delay (mkGlobals 11) - 1)
                                     MIN_SPINS_PER_DELAY)) l
        /\ slept l <> [] /\ cur_delay l <> 0).
Proof.
  assert (Hfree : forall n, first_free (env_contended n) n).
  { intros n. split; cbn [TAS env_contended].
    - rewrite Nat.ltb_irrefl. reflexivity.
    - intros k Hk. destruct (Nat.ltb_spec k n); [discriminate | lia]. }
  assert (HV : MIN_SPINS_PER_DELAY < spins_per_delay (mkGlobals 11)
               < MAX_SPINS_PER_DELAY)
    by (unfold MIN_SPINS_PER_DELAY, MAX_SPINS_PER_DELAY; cbn; lia).
  destruct (asymmetric_adjustment (env_contended 5) (mkGlobals 11)
              (sample_random_ok _) HV) as [H1 _].
  destruct (asymmetric_adjustment (env_contended 11) (mkGlobals 11)
              (sample_random_ok _) HV) as (_ & H2 & _).
  split.
  - apply (H1 5%nat (Hfree 5%nat)). cbn. lia.
  - apply (H2 11%nat (Hfree 11%nat)). unfold NUM_DELAYS. cbn. lia.
Defined.

(** C5, as the specification states it, fails: the division of C drops
    the fractional part, which for a negative sum is not the floor.  With
    a shared value of -1 and a local value of 0 the function returns 0,
    where the floor of -15/16 is -1. *)
Lemma recompute_not_floor :
  recompute_spins_per_delay (-1) (mkGlobals 0) = 0
  /\ (-1 * 15 + 0) / 16 = -1
  /\ recompute_spins_per_delay (-1) (mkGlobals 0) <> (-1 * 15 + 0) / 16.
Proof. repeat split. intros H. discriminate H. Qed.

(** C5, amended.  When [shared * 15] and [shared * 15 + local] fit in an
    [int], recompute_spins_per_delay(shared) returns their quotient by 16
    with the fractional part dropped; when moreover the sum is not
    negative, as for all values within [10, 1000], this is the floor
    (shared * 15 + local) / 16.  It returns 100 for shared = local = 100
    and 938 for shared = 1000, local = 10. *)
Theorem recompute_truncates (shared : Z) (g : globals) :
  CInt.in_range (shared * 15) ->
  CInt.in_range (shared * 15 + spins_per_delay g) ->
  recompute_spins_per_delay shared g
  = Z.quot (shared * 15 + spins_per_delay g) 16
  /\ (0 <= shared * 15 + spins_per_delay g ->
      recompute_spins_per_delay shared g
      = (shared * 15 + spins_per_delay g) / 16)
  /\ recompute_spins_per_delay 100 (mkGlobals 100) = 100
  /\ recompute_spins_per_delay 1000 (mkGlobals 10) = 938.
Proof.
  intros Hm Hs.
  assert (Hq : recompute_spins_per_delay shared g
               = Z.quot (shared * 15 + spins_per_delay g) 16).
  { unfold recompute_spins_per_delay, CInt.div, CInt.add, CInt.mul.
    rewrite (wrap_in_range (shared * 15)) by exact Hm.
    rewrite (wrap_in_range (shared * 15 + spins_per_delay g)) by exact Hs.
    apply wrap_in_range.
    remember (shared * 15 + spins_per_delay g) as sum.
    pose proof (Z.quot_rem' sum 16) as Hqr.
    pose proof (Z.rem_bound_abs sum 16 ltac:(lia)) as Hab.
    unfold CInt.in_range, CInt.INT_MIN, CInt.INT_MAX in *. lia. }
  split; [exact Hq|]. split; [|split; reflexivity].
  intros Hp. rewrite Hq. apply Z.quot_div_nonneg; lia.
Qed.

Lemma recompute_truncates_witness :
  recompute_spins_per_delay 1000 (mkGlobals 10)
  = (1000 * 15 + spins_per_delay (mkGlobals 10)) / 16.
Proof.
  assert (Hm : CInt.in_range (1000 * 15))
    by (unfold CInt.in_range, CInt.INT_MIN, CInt.INT_MAX; lia).
  assert (Hs : CInt.in_range (1000 * 15 + spins_per_delay (mkGlobals 10)))
    by (unfold CInt.in_range, CInt.INT_MIN, CInt.INT_MAX; cbn; lia).
  destruct (recompute_truncates 1000 (mkGlobals 10) Hm Hs) as (_ & H & _).
  apply H. cbn. lia.
Defined.

(** C6 (termination).  For every sequence of answers of [TAS] and every
    [int] value of [spins_per_delay], s_lock() is over within
    [iteration_bound] evaluations of [TAS]: it returns with the lock
    after at most [NUM_DELAYS] sleeps, or it calls [s_lock_stuck] at
    sleep number [NUM_DELAYS + 1].  More iterations allowed to the loop
    give the same result. *)
Theorem s_lock_terminates (env : environment) (g : globals) :
  CInt.in_range (spins_per_delay g) ->
  match s_lock env g with
  | Acquired _ l =>
      0 <= delays l <= NUM_DELAYS /\ (tas_calls l <= iteration_bound g)%nat
  | Stuck _ l =>
      delays l = NUM_DELAYS + 1 /\ (tas_calls l <= iteration_bound g)%nat
  | Diverges => False
  end
  /\ (forall fuel, (iteration_bound g <= fuel)%nat ->
        s_lock_loop fuel env g initial_locals
        = s_lock_loop (iteration_bound g) env g initial_locals).
Proof.
  intros Hspd. split.
  - pose proof (s_lock_counters env g Hspd) as H.
    destruct (s_lock env g) as [g' l|g' l|]; [| |exact H].
    + destruct H as (Hd & _ & Ht). split; assumption.
    + destruct H as (_ & Hd & _ & Ht). split; assumption.
  - intros fuel Hle. apply loop_fuel_mono; [exact Hle|].
    apply loop_terminates;
      [exact Hspd | apply initial_counters | apply initial_remaining].
Qed.

Lemma s_lock_terminates_witness :
  CInt.in_range (spins_per_delay (mkGlobals 10))
  /\ match s_lock (env_contended 25) (mkGlobals 10) with
     | Acquired _ l =>
         0 <= delays l <= NUM_DELAYS
         /\ (tas_calls l <= iteration_bound (mkGlobals 10))%nat
     | Stuck _ l =>
         delays l = NUM_DELAYS + 1
         /\ (tas_calls l <= iteration_bound (mkGlobals 10))%nat
     | Diverges => False
     end.
Proof.
  assert (Hspd : CInt.in_range (spins_per_delay (mkGlobals 10)))
    by (unfold CInt.in_range, CInt.INT_MIN, CInt.INT_MAX; cbn; lia).
  destruct (s_lock_terminates (env_contended 25) (mkGlobals 10) Hspd)
    as [H _].
  split; [exact Hspd | exact H].
Defined.

(** C7 (backoff bound).  Every delay s_lock() hands to [pg_usleep] lies
    between [MIN_DELAY_MSEC] = 1 and [MAX_DELAY_MSEC] = 1000.  One run of
    lines 121-126 from a delay in that range gives a delay in that range,
    the minimum whenever the increased value is above the maximum; so do
    any number of runs. *)
Theorem backoff_bound (env : environment) (g : globals) :
  random_ok env ->
  CInt.in_range (spins_per_delay g) ->
  match s_lock env g with
  | Acquired _ l | Stuck _ l => Forall delay_in_range (slept l)
  | Diverges => False
  end
  /\ (forall cur r,
        delay_in_range cur -> 0 <= r <= MAX_RANDOM_VALUE ->
        delay_in_range (next_delay cur r)
        /\ (cur + random_increase cur r > MAX_DELAY_MSEC ->
            next_delay cur r = MIN_DELAY_MSEC))
  /\ (forall cur rs,
        delay_in_range cur ->
        Forall (fun r => 0 <= r <= MAX_RANDOM_VALUE) rs ->
        Forall delay_in_range (delays_from cur rs)).
Proof.
  intros Hrandom Hspd. split; [|split].
  - pose proof (s_lock_counters env g Hspd) as Hc.
    pose proof (s_lock_backoff env g Hrandom) as Hb.
    destruct (s_lock env g) as [g' l|g' l|]; [| |exact Hc]; apply Hb.
  - intros cur r Hcur Hr. split; [apply next_delay_range; assumption|].
    intros Hgt. unfold delay_in_range, MIN_DELAY_MSEC in Hcur.
    rewrite next_delay_unfold by (unfold MIN_DELAY_MSEC; lia).
    destruct (Z.gtb_spec (cur + random_increase cur r) MAX_DELAY_MSEC);
      [reflexivity | lia].
  - intros cur rs. apply delays_from_range.
Qed.

Lemma backoff_bound_witness :
  random_ok (env_contended 45)
  /\ match s_lock (env_contended 45) (mkGlobals 10) with
     | Acquired _ l | Stuck _ l => Forall delay_in_range (slept l)
     | Diverges => False
     end.
Proof.
  assert (Hrandom : random_ok (env_contended 45))
    by apply sample_random_ok.
  assert (Hspd : CInt.in_range (spins_per_delay (mkGlobals 10)))
    by (unfold CInt.in_range, CInt.INT_MIN, CInt.INT_MAX; cbn; lia).
  destruct (backoff_bound (env_contended 45) (mkGlobals 10) Hrandom Hspd)
    as [H _].
  split; [exact Hrandom | exact H].
Defined.




(** C9 (seeding is not clamped).  set_spins_per_delay(v) stores [v] as
    it is, for every [v].  When the stored value is above
    [MAX_SPINS_PER_DELAY], a call of s_lock() that leaves the loop with
    [cur_delay] = 0 leaves it unchanged; such is the call that finds the
    lock free at once. *)
Theorem seeding_unclamped (v : Z) (g : globals) :
  spins_per_delay (set_spins_per_delay v g) = v
  /\ (forall env g' l,
        MAX_SPINS_PER_DELAY < v ->
        s_lock env (set_spins_per_delay v g) = Acquired g' l ->
        cur_delay l = 0 ->
        spins_per_delay g' = v)
  /\ (forall env,
        MAX_SPINS_PER_DELAY < v ->
        TAS env 0 = 0 ->
        exists l, s_lock env (set_spins_per_delay v g)
                  = Acquired (mkGlobals v) l
                  /\ slept l = []).
Proof.
  split; [reflexivity|]. split.
  - intros env g' l Hv E E0.
    rewrite (s_lock_acquired _ _ _ _ E), E0.
    rewrite adjust_above_max; [reflexivity|]. cbn [spins_per_delay set_spins_per_delay]. lia.
  - intros env Hv H0. eexists. rewrite (s_lock_first_try _ _ H0).
    rewrite adjust_above_max by (cbn [spins_per_delay set_spins_per_delay]; lia).
    split; reflexivity.
Qed.

Lemma seeding_unclamped_witness :
  exists l, s_lock env_free (set_spins_per_delay 5000 initial_globals)
            = Acquired (mkGlobals 5000) l
            /\ slept l = [].
Proof.
  destruct (seeding_unclamped 5000 initial_globals) as (_ & _ & H).
  apply (H env_free).
  - unfold MAX_SPINS_PER_DELAY. lia.
  - reflexivity.
Defined.

(** C10 (the update fires on immediate success).  When the first [TAS]
    of s_lock() obtains the lock, the call returns after that single
    try, without a sleep, and the adjustment takes the branch of
    [cur_delay] = 0: a [spins_per_delay] not above the maximum becomes
    min (spins_per_delay + 100, 1000).  A call that returns from a
    [spins_per_delay] strictly between 10 and 1000 always changes it. *)
Theorem update_on_immediate_success (env : environment) (g : globals) :
  CInt.in_range (spins_per_delay g) ->
  (TAS env 0 = 0 ->
   exists l, s_lock env g = Acquired (adjust_spins_per_delay 0 g) l
             /\ slept l = [] /\ cur_delay l = 0
             /\ spins l = 0 /\ tas_calls l = 1%nat
             /\ (spins_per_delay g <= MAX_SPINS_PER_DELAY ->
                 spins_per_delay (adjust_spins_per_delay 0 g)
                 = Z.min (spins_per_delay g + 100) MAX_SPINS_PER_DELAY))
  /\ (MIN_SPINS_PER_DELAY < spins_per_delay g < MAX_SPINS_PER_DELAY ->
      forall g' l, s_lock env g = Acquired g' l ->
                   spins_per_delay g' <> spins_per_delay g).
Proof.
  intros Hspd. split.
  - intros H0. eexists. rewrite (s_lock_first_try _ _ H0).
    repeat split. intros Hle. apply adjust_no_sleep; assumption.
  - intros HV g' l E. rewrite (s_lock_acquired _ _ _ _ E).
    unfold MIN_SPINS_PER_DELAY, MAX_SPINS_PER_DELAY in HV.
    destruct (Z.eq_dec (cur_delay l) 0) as [E0|Hne].
    + rewrite E0, adjust_no_sleep
        by (try assumption; unfold MAX_SPINS_PER_DELAY; lia).
      unfold MAX_SPINS_PER_DELAY. lia.
    + rewrite adjust_slept
        by (try assumption;
            unfold MIN_SPINS_PER_DELAY, MAX_SPINS_PER_DELAY; lia).
      unfold MIN_SPINS_PER_DELAY. lia.
Qed.

Lemma update_on_immediate_success_witness :
  exists l, s_lock env_free initial_globals
            = Acquired (adjust_spins_per_delay 0 initial_globals) l
            /\ slept l = [] /\ cur_delay l = 0
            /\ spins l = 0 /\ tas_calls l = 1%nat
            /\ (spins_per_delay initial_globals <= MAX_SPINS_PER_DELAY ->
                spins_per_delay (adjust_spins_per_delay 0 initial_globals)
                = Z.min (spins_per_delay initial_globals + 100)
                        MAX_SPINS_PER_DELAY).
Proof.
  assert (Hspd : CInt.in_range (spins_per_delay initial_globals))
    by (unfold CInt.in_range, CInt.INT_MIN, CInt.INT_MAX, initial_globals,
          DEFAULT_SPINS_PER_DELAY; cbn; lia).
  destruct (update_on_immediate_success env_free initial_globals Hspd)
    as [H _].
  exact (H eq_refl).
Defined.

(** * Further properties *)

(** ** Folding the estimate *)

Lemma recompute_no_overflow shared g :
  CInt.in_range (shared * 15) ->
  CInt.in_range (shared * 15 + spins_per_delay g) ->
  recompute_spins_per_delay shared g
  = Z.quot (shared * 15 + spins_per_delay g) 16.
Proof.
  intros Hm Hs.
  unfold recompute_spins_per_delay, CInt.div, CInt.add, CInt.mul.
  rewrite (wrap_in_range (shared * 15)) by exact Hm.
  rewrite (wrap_in_range (shared * 15 + spins_per_delay g)) by exact Hs.
  apply wrap_in_range.
  remember (shared * 15 + spins_per_delay g) as sum.
  pose proof (Z.quot_rem' sum 16) as Hqr.
  pose proof (Z.rem_bound_abs sum 16 ltac:(lia)) as Hab.
  unfold CInt.in_range, CInt.INT_MIN, CInt.INT_MAX in *. lia.
Qed.

Lemma recompute_nonneg shared g :
  0 <= shared -> 0 <= spins_per_delay g ->
  CInt.in_range (shared * 15 + spins_per_delay g) ->
  recompute_spins_per_delay shared g
  = (shared * 15 + spins_per_delay g) / 16.
Proof.
  intros H0 Hl Hs. rewrite recompute_no_overflow; [|int_range|exact Hs].
  apply Z.quot_div_nonneg; lia.
Qed.

(** X1.  "As long as both inputs are within the allowed range, the
    result must be too": with the shared value and the local
    [spins_per_delay] both within [10, 1000], the value
    recompute_spins_per_delay() returns is within [10, 1000]. *)
Theorem recompute_keeps_bounds (shared : Z) (g : globals) :
  MIN_SPINS_PER_DELAY <= shared <= MAX_SPINS_PER_DELAY ->
  spins_in_bounds g ->
  MIN_SPINS_PER_DELAY <= recompute_spins_per_delay shared g
    <= MAX_SPINS_PER_DELAY.
Proof.
  unfold spins_in_bounds, MIN_SPINS_PER_DELAY, MAX_SPINS_PER_DELAY.
  intros Hs Hg. rewrite recompute_nonneg by (try int_range; lia).
  split.
  - apply Z.div_le_lower_bound; lia.
  - apply Z.div_le_upper_bound; lia.
Qed.

Lemma recompute_keeps_bounds_witness :
  spins_in_bounds (mkGlobals 10)
  /\ MIN_SPINS_PER_DELAY <= recompute_spins_per_delay 1000 (mkGlobals 10)
     <= MAX_SPINS_PER_DELAY.
Proof.
  assert (Hs : MIN_SPINS_PER_DELAY <= 1000 <= MAX_SPINS_PER_DELAY)
    by (unfold MIN_SPINS_PER_DELAY, MAX_SPINS_PER_DELAY; lia).
  assert (Hg : spins_in_bounds (mkGlobals 10))
    by (unfold spins_in_bounds, MIN_SPINS_PER_DELAY, MAX_SPINS_PER_DELAY;
        cbn; lia).
  split; [exact Hg|].
  exact (recompute_keeps_bounds 1000 (mkGlobals 10) Hs Hg).
Defined.

(** X2.  The folded value lies between the shared and the local value,
    and the truncation favours the decrease: a local value below the
    shared one, be it by one, lowers the result below the shared value,
    while a local value above it raises the result only from a distance
    of 16 on. *)
Theorem recompute_between (shared : Z) (g : globals) :
  0 <= shared -> 0 <= spins_per_delay g ->
  CInt.in_range (shared * 15 + spins_per_delay g) ->
  Z.min shared (spins_per_delay g)
    <= recompute_spins_per_delay shared g
    <= Z.max shared (spins_per_delay g)
  /\ (spins_per_delay g < shared ->
      recompute_spins_per_delay shared g < shared)
  /\ (shared <= spins_per_delay g < shared + 16 ->
      recompute_spins_per_delay shared g = shared)
  /\ (shared + 16 <= spins_per_delay g ->
      shared < recompute_spins_per_delay shared g).
Proof.
  intros H0 Hl Hs. rewrite recompute_nonneg by assumption.
  remember (spins_per_delay g) as l.
  pose proof (Z.div_mod (shared * 15 + l) 16 ltac:(lia)) as Hd.
  pose proof (Z.mod_pos_bound (shared * 15 + l) 16 ltac:(lia)) as Hb.
  repeat split; intros; lia.
Qed.

Lemma recompute_between_witness :
  recompute_spins_per_delay 500 (mkGlobals 499) < 500.
Proof.
  assert (H0 : 0 <= 500) by lia.
  assert (Hl : 0 <= spins_per_delay (mkGlobals 499))
    by (cbn [spins_per_delay]; lia).
  assert (Hr : CInt.in_range (500 * 15 + spins_per_delay (mkGlobals 499)))
    by (unfold CInt.in_range, CInt.INT_MIN, CInt.INT_MAX;
        cbn [spins_per_delay]; lia).
  destruct (recompute_between 500 (mkGlobals 499) H0 Hl Hr) as (_ & H & _).
  apply H. cbn [spins_per_delay]. lia.
Defined.

(** X3.  A process that seeds its estimate from the shared value and
    folds it back without a call of s_lock() in between leaves the shared
    value as it was. *)
Theorem seed_then_fold (shared : Z) (g : globals) :
  CInt.in_range (shared * 16) ->
  recompute_spins_per_delay shared (set_spins_per_delay shared g) = shared.
Proof.
  intros Hr.
  rewrite recompute_no_overflow;
    cbn [spins_per_delay set_spins_per_delay]; try int_range.
  replace (shared * 15 + shared) with (shared * 16) by ring.
  apply Z.quot_mul. lia.
Qed.

Lemma seed_then_fold_witness :
  recompute_spins_per_delay (-7) (set_spins_per_delay (-7) initial_globals)
  = -7.
Proof.
  apply (seed_then_fold (-7) initial_globals).
  unfold CInt.in_range, CInt.INT_MIN, CInt.INT_MAX. lia.
Defined.

(** X4.  When the lock is first found free at try number [n] (counted
    from 0) and [n] is below (NUM_DELAYS + 1) * max (1, spins_per_delay),
    s_lock() returns after exactly [n + 1] evaluations of [TAS], having
    slept exactly [n / max (1, spins_per_delay)] times: it blocks once
    every [spins_per_delay] failed tries, and [spins] holds the
    remainder. *)
Theorem s_lock_accounting (env : environment) (g : globals) (n : nat) :
  CInt.in_range (spins_per_delay g) ->
  first_free env n ->
  Z.of_nat n < (NUM_DELAYS + 1) * spin_budget g ->
  exists g' l,
    s_lock env g = Acquired g' l
    /\ tas_calls l = S n
    /\ delays l = Z.of_nat n / spin_budget g
    /\ spins l = Z.of_nat n mod spin_budget g
    /\ Z.of_nat (length (slept l)) = Z.of_nat n / spin_budget g.
Proof. exact (acquired_at_first_free env g n). Qed.

Lemma s_lock_accounting_witness :
  first_free (env_contended 45) 45
  /\ exists g' l,
       s_lock (env_contended 45) (mkGlobals 10) = Acquired g' l
       /\ tas_calls l = S 45
       /\ delays l = Z.of_nat 45 / spin_budget (mkGlobals 10)
       /\ spins l = Z.of_nat 45 mod spin_budget (mkGlobals 10)
       /\ Z.of_nat (length (slept l))
          = Z.of_nat 45 / spin_budget (mkGlobals 10).
Proof.
  assert (Hspd : CInt.in_range (spins_per_delay (mkGlobals 10)))
    by (unfold CInt.in_range, CInt.INT_MIN, CInt.INT_MAX; cbn; lia).
  assert (Hfree : first_free (env_contended 45) 45).
  { split; [reflexivity|]. intros k Hk. cbn [TAS env_contended].
    destruct (Nat.ltb_spec k 45); [discriminate | lia]. }
  assert (Hn : Z.of_nat 45 < (NUM_DELAYS + 1) * spin_budget (mkGlobals 10))
    by (unfold NUM_DELAYS, spin_budget; cbn; lia).
  split; [exact Hfree|].
  exact (s_lock_accounting (env_contended 45) (mkGlobals 10) 45
           Hspd Hfree Hn).
Defined.

(** X5.  s_lock() returns with the lock exactly when one of the first
    (NUM_DELAYS + 1) * max (1, spins_per_delay) evaluations of [TAS]
    obtains it; otherwise, and only then, it ends in [s_lock_stuck],
    having made exactly that many evaluations. *)
Theorem s_lock_acquires_iff (env : environment) (g : globals) :
  CInt.in_range (spins_per_delay g) ->
  ((exists n, Z.of_nat n < (NUM_DELAYS + 1) * spin_budget g
              /\ TAS env n = 0)
   <-> exists g' l, s_lock env g = Acquired g' l)
  /\ ((forall n, Z.of_nat n < (NUM_DELAYS + 1) * spin_budget g ->
                 TAS env n <> 0)
      <-> exists l, s_lock env g = Stuck g l
                    /\ Z.of_nat (tas_calls l)
                       = (NUM_DELAYS + 1) * spin_budget g).
Proof.
  intros Hspd. pose proof (s_lock_tries env g Hspd) as H.
  pose proof (s_lock_counters env g Hspd) as Hc.
  destruct (s_lock env g) as [g' l|g' l|]; [| |contradiction].
  - destruct H as (m & Hm & [H0 Hbefore] & Hcount & Hs & Hd & _).
    assert (Hlt : Z.of_nat m < (NUM_DELAYS + 1) * spin_budget g)
      by (unfold NUM_DELAYS in *; nia).
    split; split.
    + intros _. exists g', l. reflexivity.
    + intros _. exists m. split; assumption.
    + intros Hall. exfalso. exact (Hall m Hlt H0).
    + intros (l1 & E & _). discriminate E.
  - destruct H as [Hcalls Hfail]. destruct Hc as (-> & _).
    split; split.
    + intros (n & Hn & H0). exfalso. apply (Hfail n); [lia | exact H0].
    + intros (g1 & l1 & E). discriminate E.
    + intros _. exists l. split; [reflexivity | exact Hcalls].
    + intros _ n Hn. apply Hfail. lia.
Qed.

Lemma s_lock_acquires_iff_witness :
  exists g' l, s_lock (env_contended 45) (mkGlobals 10) = Acquired g' l.
Proof.
  assert (Hspd : CInt.in_range (spins_per_delay (mkGlobals 10)))
    by (unfold CInt.in_range, CInt.INT_MIN, CInt.INT_MAX; cbn; lia).
  destruct (s_lock_acquires_iff (env_contended 45) (mkGlobals 10) Hspd)
    as [[H _] _].
  apply H. exists 45%nat. split; [|reflexivity].
  unfold NUM_DELAYS, spin_budget. cbn. lia.
Defined.

(** ** The growth of the delay *)

(** X6.  One run of lines 121-126 from a delay within [1, 1000] either
    keeps the delay or increases it, to at most twice its value, or
    resets it to [MIN_DELAY_MSEC]; a reset happens only from a delay
    above half of [MAX_DELAY_MSEC].  The draw 0 keeps the delay as it
    is. *)
Theorem backoff_growth (cur r : Z) :
  delay_in_range cur -> 0 <= r <= MAX_RANDOM_VALUE ->
  (cur <= next_delay cur r <= 2 * cur
   \/ (next_delay cur r = MIN_DELAY_MSEC /\ MAX_DELAY_MSEC < 2 * cur))
  /\ next_delay cur 0 = cur.
Proof.
  unfold delay_in_range. intros Hc Hr.
  assert (H1 : 1 <= cur <= MAX_DELAY_MSEC)
    by (unfold MIN_DELAY_MSEC in Hc; exact Hc).
  split.
  - rewrite next_delay_unfold by assumption.
    pose proof (random_increase_bounds cur r ltac:(lia) Hr) as Hi.
    destruct (Z.gtb_spec (cur + random_increase cur r) MAX_DELAY_MSEC);
      [right; split; [reflexivity | lia] | left; lia].
  - rewrite next_delay_unfold
      by (try assumption; unfold MAX_RANDOM_VALUE; lia).
    assert (H0 : random_increase cur 0 = 0).
    { rewrite random_increase_div by lia. unfold MAX_RANDOM_VALUE.
      rewrite Z.mul_0_r, Z.add_0_l. reflexivity. }
    rewrite H0, Z.add_0_r.
    destruct (Z.gtb_spec cur MAX_DELAY_MSEC); [lia | reflexivity].
Qed.

Lemma backoff_growth_witness :
  (600 <= next_delay 600 2147483647 <= 2 * 600
   \/ (next_delay 600 2147483647 = MIN_DELAY_MSEC
       /\ MAX_DELAY_MSEC < 2 * 600))
  /\ next_delay 600 0 = 600.
Proof.
  apply (backoff_growth 600 2147483647).
  - unfold delay_in_range, MIN_DELAY_MSEC, MAX_DELAY_MSEC. lia.
  - unfold MAX_RANDOM_VALUE. lia.
Defined.

(** A turn of the loop that goes on either leaves the sleeping state as
    it was or logs one sleep and computes the next delay. *)
Lemma iteration_continue_cases env g l l' :
  loop_iteration env g l = Continue l' ->
  (slept l' = slept l /\ cur_delay l' = cur_delay l)
  \/ (let cur := if cur_delay l =? 0 then MIN_DELAY_MSEC else cur_delay l in
      slept l' = cur :: slept l
      /\ cur_delay l' = next_delay cur (random env (random_calls l))).
Proof.
  unfold loop_iteration, s_lock_stuck.
  cbn [spins delays cur_delay tas_calls random_calls slept].
  destruct (TAS env (tas_calls l) =? 0); [discriminate|].
  destruct (_ >=? _); [destruct (_ >? _); [discriminate|]|];
    intros E; injection E as <-; cbn [slept cur_delay];
    [right | left]; split; reflexivity.
Qed.

Lemma iteration_doubling env g l l' :
  random_ok env ->
  doubling_invariant l ->
  loop_iteration env g l = Continue l' ->
  doubling_invariant l'.
Proof.
  intros Hrandom [Hb Hlog Hcur] E.
  pose proof (iteration_backoff env g l l' Hrandom Hb E) as Hb'.
  constructor; [exact Hb'| |];
    destruct (iteration_continue_cases env g l l' E) as [[Es Ec]|[Es Ec]];
    rewrite ?Es, ?Ec; try assumption.
  - (* the log after a sleep *)
    cbn [doubling_bound]. split; [|exact Hlog].
    destruct Hb as [Hc _ _]. destruct (slept l) as [|d0 log].
    + rewrite Hc. cbn. unfold MIN_DELAY_MSEC. lia.
    + destruct Hc as [Hin _]. unfold delay_in_range, MIN_DELAY_MSEC in Hin.
      destruct (Z.eqb_spec (cur_delay l) 0); [lia | exact Hcur].
  - (* the delay computed after a sleep *)
    cbn [length]. rewrite Nat2Z.inj_succ, Z.pow_succ_r by lia.
    set (cur := if cur_delay l =? 0 then MIN_DELAY_MSEC else cur_delay l).
    assert (Hin : delay_in_range cur /\ cur <= 2 ^ Z.of_nat (length (slept l))).
    { subst cur. destruct Hb as [Hc _ _]. destruct (slept l) as [|d0 log].
      - rewrite Hc. cbn.
        unfold delay_in_range, MIN_DELAY_MSEC, MAX_DELAY_MSEC. lia.
      - destruct Hc as [Hin _].
        pose proof Hin as Hin'.
        unfold delay_in_range, MIN_DELAY_MSEC in Hin'.
        destruct (Z.eqb_spec (cur_delay l) 0); [lia|].
        split; assumption. }
    destruct Hin as [Hin Hle].
    pose proof (Hrandom (random_calls l)) as Hr.
    pose proof (next_delay_range cur _ Hin Hr) as Hn.
    unfold delay_in_range, MIN_DELAY_MSEC in Hin, Hn.
    rewrite next_delay_unfold by (try assumption; lia).
    pose proof (random_increase_bounds cur _ ltac:(lia) Hr) as Hi.
    destruct (Z.gtb_spec (cur + random_increase cur
                                  (random env (random_calls l)))
                MAX_DELAY_MSEC); unfold MIN_DELAY_MSEC; lia.
Qed.

Lemma doubling_bound_total log :
  doubling_bound log ->
  fold_right Z.add 0 log <= 2 ^ Z.of_nat (length log) - 1.
Proof.
  induction log as [|d log IH]; intros H.
  - cbn. lia.
  - destruct H as [Hd Hlog]. specialize (IH Hlog).
    cbn [fold_right length]. rewrite Nat2Z.inj_succ, Z.pow_succ_r by lia.
    lia.
Qed.

(** X7.  The delays of a call grow at most by doubling from one
    millisecond: the sleep number [i] (from 0) of a call lasts at most
    2^i milliseconds, and the sleeps of a call that made [k] of them add
    up to at most 2^k - 1 milliseconds. *)
Theorem backoff_doubling (env : environment) (g : globals) :
  random_ok env ->
  CInt.in_range (spins_per_delay g) ->
  match s_lock env g with
  | Acquired _ l | Stuck _ l =>
      (forall i d, nth_error (rev (slept l)) i = Some d ->
                   MIN_DELAY_MSEC <= d <= 2 ^ Z.of_nat i)
      /\ total_sleep l <= 2 ^ Z.of_nat (length (slept l)) - 1
  | Diverges => False
  end.
Proof.
  intros Hrandom Hspd.
  assert (Hinit : doubling_invariant initial_locals).
  { constructor; [apply initial_backoff | exact I | cbn; lia]. }
  pose proof (loop_rule env g doubling_invariant
                (fun l l' Hl E => iteration_doubling env g l l' Hrandom Hl E)
                (iteration_bound g) initial_locals Hinit) as H.
  pose proof (s_lock_counters env g Hspd) as Hc.
  assert (Hlog : forall log,
            doubling_bound log -> Forall delay_in_range log ->
            forall i d, nth_error (rev log) i = Some d ->
                        MIN_DELAY_MSEC <= d <= 2 ^ Z.of_nat i).
  { induction log as [|d0 log IH]; intros Hd Hr i d Hi.
    - destruct i; discriminate Hi.
    - destruct Hd as [Hd0 Hd]. inversion Hr as [|? ? Hr0 Hr']; subst.
      cbn [rev] in Hi.
      destruct (Nat.lt_ge_cases i (length (rev log))) as [Hlt|Hge].
      + rewrite nth_error_app1 in Hi by exact Hlt. apply (IH Hd Hr' i d Hi).
      + rewrite nth_error_app2 in Hi by exact Hge.
        rewrite length_rev in *.
        destruct (i - length log)%nat as [|j] eqn:Ej.
        * cbn in Hi. injection Hi as <-.
          assert (i = length log) by lia. subst i.
          split; [apply Hr0 | exact Hd0].
        * destruct j; discriminate Hi. }
  unfold s_lock in *.
  destruct (s_lock_loop (iteration_bound g) env g initial_locals)
    as [l'|l'|]; [| |exact Hc]; destruct H as (l0 & [Hb Hd _] & E).
  - destruct (iteration_leave env g l0 l' E) as [_ ->].
    unfold total_sleep. cbn [slept]. split.
    + apply Hlog; [exact Hd | apply Hb].
    + apply doubling_bound_total, Hd.
  - assert (Es : slept l' = slept l0).
    { revert E. unfold loop_iteration, s_lock_stuck.
      cbn [spins delays cur_delay tas_calls random_calls slept].
      destruct (_ =? 0); [discriminate|].
      destruct (_ >=? _); [|discriminate].
      destruct (_ >? _); [|discriminate].
      intros E; injection E as <-. reflexivity. }
    unfold total_sleep. rewrite Es. split.
    + apply Hlog; [exact Hd | apply Hb].
    + apply doubling_bound_total, Hd.
Qed.

Lemma backoff_doubling_witness :
  random_ok (env_contended 45)
  /\ match s_lock (env_contended 45) (mkGlobals 10) with
     | Acquired _ l | Stuck _ l =>
         (forall i d, nth_error (rev (slept l)) i = Some d ->
                      MIN_DELAY_MSEC <= d <= 2 ^ Z.of_nat i)
         /\ total_sleep l <= 2 ^ Z.of_nat (length (slept l)) - 1
     | Diverges => False
     end.
Proof.
  assert (Hrandom : random_ok (env_contended 45))
    by apply sample_random_ok.
  assert (Hspd : CInt.in_range (spins_per_delay (mkGlobals 10)))
    by (unfold CInt.in_range, CInt.INT_MIN, CInt.INT_MAX; cbn; lia).
  split; [exact Hrandom|].
  exact (backoff_doubling (env_contended 45) (mkGlobals 10) Hrandom Hspd).
Defined.

Lemma range_total log :
  Forall delay_in_range log ->
  Z.of_nat (length log) * MIN_DELAY_MSEC
    <= fold_right Z.add 0 log
    <= Z.of_nat (length log) * MAX_DELAY_MSEC.
Proof.
  unfold delay_in_range, MIN_DELAY_MSEC, MAX_DELAY_MSEC.
  induction 1 as [|d log Hd _ IH]; cbn [fold_right length].
  - cbn. lia.
  - rewrite Nat2Z.inj_succ. lia.
Qed.

(** X8.  A call that ends in [s_lock_stuck] has slept between
    [NUM_DELAYS * MIN_DELAY_MSEC] and [NUM_DELAYS * MAX_DELAY_MSEC]
    milliseconds in all (one second to 1000 seconds); a call that
    returns has slept at most as long. *)
Theorem total_sleep_bounds (env : environment) (g : globals) :
  random_ok env ->
  CInt.in_range (spins_per_delay g) ->
  match s_lock env g with
  | Acquired _ l =>
      0 <= total_sleep l <= NUM_DELAYS * MAX_DELAY_MSEC
  | Stuck _ l =>
      NUM_DELAYS * MIN_DELAY_MSEC <= total_sleep l
        <= NUM_DELAYS * MAX_DELAY_MSEC
  | Diverges => False
  end.
Proof.
  intros Hrandom Hspd.
  pose proof (s_lock_counters env g Hspd) as Hc.
  pose proof (s_lock_backoff env g Hrandom) as Hb.
  destruct (s_lock env g) as [g' l|g' l|]; [| |exact Hc];
    destruct Hb as [_ Hr _]; pose proof (range_total _ Hr) as Ht;
    unfold total_sleep, NUM_DELAYS, MIN_DELAY_MSEC, MAX_DELAY_MSEC in *.
  - destruct Hc as (Hd & Hlen & _). lia.
  - destruct Hc as (_ & _ & Hlen & _). lia.
Qed.

Lemma total_sleep_bounds_witness :
  random_ok (env_contended 45)
  /\ match s_lock (env_contended 45) (mkGlobals 10) with
     | Acquired _ l =>
         0 <= total_sleep l <= NUM_DELAYS * MAX_DELAY_MSEC
     | Stuck _ l =>
         NUM_DELAYS * MIN_DELAY_MSEC <= total_sleep l
           <= NUM_DELAYS * MAX_DELAY_MSEC
     | Diverges => False
     end.
Proof.
  assert (Hrandom : random_ok (env_contended 45))
    by apply sample_random_ok.
  assert (Hspd : CInt.in_range (spins_per_delay (mkGlobals 10)))
    by (unfold CInt.in_range, CInt.INT_MIN, CInt.INT_MAX; cbn; lia).
  split; [exact Hrandom|].
  exact (total_sleep_bounds (env_contended 45) (mkGlobals 10) Hrandom Hspd).
Defined.

(** ** The convergence of the estimate *)

Lemma globals_eta g : mkGlobals (spins_per_delay g) = g.
Proof. destruct g. reflexivity. Qed.

Lemma bounds_in_range g :
  spins_in_bounds g -> CInt.in_range (spins_per_delay g).
Proof.
  unfold spins_in_bounds, MIN_SPINS_PER_DELAY, MAX_SPINS_PER_DELAY.
  intros H. int_range.
Qed.

Lemma sequence_bounds envs : forall g g',
  spins_in_bounds g ->
  s_lock_sequence envs g = Some g' ->
  spins_in_bounds g'.
Proof.
  induction envs as [|env envs IH]; intros g g' Hb; cbn [s_lock_sequence].
  - intros E; injection E as <-. exact Hb.
  - destruct (s_lock env g) as [g1 l| |] eqn:E; try discriminate.
    apply IH. rewrite (s_lock_acquired env g g1 l E).
    apply adjust_bounds, Hb.
Qed.

(** X9.  Calls that find the lock free at the first try raise an
    estimate within its bounds by 100 each, up to the maximum: after [k]
    of them it is min (spins_per_delay + 100 k, 1000), so ten such calls
    bring any estimate to [MAX_SPINS_PER_DELAY], where it stays. *)
Theorem uncontended_convergence (envs : list environment) (g : globals) :
  spins_in_bounds g ->
  Forall (fun env => TAS env 0 = 0) envs ->
  s_lock_sequence envs g
  = Some (mkGlobals (Z.min (spins_per_delay g
                            + 100 * Z.of_nat (length envs))
                           MAX_SPINS_PER_DELAY))
  /\ ((10 <= length envs)%nat ->
      s_lock_sequence envs g = Some (mkGlobals MAX_SPINS_PER_DELAY)).
Proof.
  intros Hb Hfree.
  assert (H : s_lock_sequence envs g
              = Some (mkGlobals (Z.min (spins_per_delay g
                                        + 100 * Z.of_nat (length envs))
                                       MAX_SPINS_PER_DELAY))).
  { revert g Hb. induction Hfree as [|env envs H0 _ IH]; intros g Hb.
    - cbn [s_lock_sequence length]. f_equal.
      rewrite <- (globals_eta g) at 1. f_equal.
      unfold spins_in_bounds, MAX_SPINS_PER_DELAY in *. lia.
    - cbn [s_lock_sequence length]. rewrite (s_lock_first_try env g H0).
      rewrite (IH _ (adjust_bounds 0 g Hb)).
      rewrite adjust_no_sleep
        by (try apply bounds_in_range; try apply Hb; assumption).
      f_equal. f_equal. rewrite Nat2Z.inj_succ.
      unfold spins_in_bounds, MIN_SPINS_PER_DELAY,
        MAX_SPINS_PER_DELAY in *. lia. }
  split; [exact H|]. intros Hlen. rewrite H. f_equal. f_equal.
  unfold spins_in_bounds, MIN_SPINS_PER_DELAY, MAX_SPINS_PER_DELAY in *.
  lia.
Qed.

Lemma uncontended_convergence_witness :
  s_lock_sequence (repeat env_free 10) (mkGlobals 10)
  = Some (mkGlobals MAX_SPINS_PER_DELAY).
Proof.
  assert (Hb : spins_in_bounds (mkGlobals 10))
    by (unfold spins_in_bounds, MIN_SPINS_PER_DELAY, MAX_SPINS_PER_DELAY;
        cbn; lia).
  assert (Hfree : Forall (fun env => TAS env 0 = 0) (repeat env_free 10))
    by (repeat constructor).
  destruct (uncontended_convergence (repeat env_free 10) (mkGlobals 10)
              Hb Hfree) as [_ H].
  apply H. cbn. lia.
Defined.

(** A call that sleeps and then returns lowers the estimate by one. *)
Lemma contended_call env g :
  spins_in_bounds g ->
  contended_env env ->
  exists l,
    s_lock env g
    = Acquired (mkGlobals (Z.max (spins_per_delay g - 1)
                                 MIN_SPINS_PER_DELAY)) l
    /\ slept l <> [].
Proof.
  intros Hb (Hrandom & n & Hfree & Hn).
  pose proof (bounds_in_range g Hb) as Hspd.
  assert (HK : spin_budget g = spins_per_delay g)
    by (unfold spin_budget, spins_in_bounds, MIN_SPINS_PER_DELAY in *; lia).
  destruct (acquired_at_first_free env g n Hspd Hfree) as
    (g' & l & E & _ & Hd & _ & Hlen).
  { rewrite HK.
    unfold spins_in_bounds, MIN_SPINS_PER_DELAY, MAX_SPINS_PER_DELAY,
      NUM_DELAYS in *. nia. }
  assert (Hsl : slept l <> []).
  { intros Hnil. rewrite Hnil in Hlen. cbn [length] in Hlen.
    rewrite HK in Hlen.
    assert (1 <= Z.of_nat n / spins_per_delay g).
    { apply Z.div_le_lower_bound;
        unfold spins_in_bounds, MIN_SPINS_PER_DELAY,
          MAX_SPINS_PER_DELAY in *; lia. }
    lia. }
  exists l. split; [|exact Hsl].
  rewrite E. f_equal. rewrite (s_lock_acquired env g g' l E).
  pose proof (s_lock_backoff env g Hrandom) as Hbk. rewrite E in Hbk.
  assert (Hcur : cur_delay l <> 0)
    by (intros H0; apply Hsl; apply (backoff_cur_delay l Hbk); exact H0).
  rewrite <- (adjust_slept (cur_delay l) g Hcur Hb).
  symmetry. apply globals_eta.
Qed.

(** X10.  Calls that sleep before they get the lock lower an estimate
    within its bounds by one each, down to the minimum: after [k] of
    them it is max (spins_per_delay - k, 10). *)
Theorem contended_convergence (envs : list environment) (g : globals) :
  spins_in_bounds g ->
  Forall contended_env envs ->
  s_lock_sequence envs g
  = Some (mkGlobals (Z.max (spins_per_delay g - Z.of_nat (length envs))
                           MIN_SPINS_PER_DELAY)).
Proof.
  intros Hb Hall. revert g Hb.
  induction Hall as [|env envs Hc _ IH]; intros g Hb.
  - cbn [s_lock_sequence length]. f_equal.
    rewrite <- (globals_eta g) at 1. f_equal.
    unfold spins_in_bounds, MIN_SPINS_PER_DELAY in *. cbn. lia.
  - cbn [s_lock_sequence length].
    destruct (contended_call env g Hb Hc) as (l & E & _). rewrite E.
    rewrite IH.
    + cbn [spins_per_delay]. f_equal. f_equal. rewrite Nat2Z.inj_succ.
      unfold spins_in_bounds, MIN_SPINS_PER_DELAY in *. lia.
    + unfold spins_in_bounds, MIN_SPINS_PER_DELAY,
        MAX_SPINS_PER_DELAY in *. cbn [spins_per_delay]. lia.
Qed.

Lemma contended_env_sample : contended_env (env_contended 1000).
Proof.
  split; [apply sample_random_ok|]. exists 1000%nat. split.
  - split; [reflexivity|]. intros k Hk. cbn [TAS env_contended].
    destruct (Nat.ltb_spec k 1000); [discriminate | lia].
  - unfold MAX_SPINS_PER_DELAY, NUM_DELAYS, MIN_SPINS_PER_DELAY. lia.
Qed.

Lemma contended_convergence_witness :
  s_lock_sequence [env_contended 1000; env_contended 1000] (mkGlobals 11)
  = Some (mkGlobals
            (Z.max (spins_per_delay (mkGlobals 11)
                    - Z.of_nat (length [env_contended 1000;
                                        env_contended 1000]))
                   MIN_SPINS_PER_DELAY)).
Proof.
  assert (Hb : spins_in_bounds (mkGlobals 11))
    by (unfold spins_in_bounds, MIN_SPINS_PER_DELAY, MAX_SPINS_PER_DELAY;
        cbn; lia).
  assert (Hall : Forall contended_env
                   [env_contended 1000; env_contended 1000])
    by (repeat constructor; apply contended_env_sample).
  exact (contended_convergence [env_contended 1000; env_contended 1000]
           (mkGlobals 11) Hb Hall).
Defined.

(** X11.  The shared estimate stays within [10, 1000] over the life of
    a process: seeded from a shared value within the bounds, the local
    estimate is within them after any calls of s_lock(), and so is the
    value folded back at the end. *)
Theorem lifecycle_keeps_bounds (shared : Z) (g0 : globals)
  (envs : list environment) (g : globals) :
  MIN_SPINS_PER_DELAY <= shared <= MAX_SPINS_PER_DELAY ->
  s_lock_sequence envs (set_spins_per_delay shared g0) = Some g ->
  spins_in_bounds g
  /\ MIN_SPINS_PER_DELAY <= recompute_spins_per_delay shared g
     <= MAX_SPINS_PER_DELAY.
Proof.
  intros Hs E.
  assert (Hg : spins_in_bounds g)
    by (apply (sequence_bounds envs (set_spins_per_delay shared g0) g);
        [exact Hs | exact E]).
  split; [exact Hg|].
  unfold spins_in_bounds, MIN_SPINS_PER_DELAY, MAX_SPINS_PER_DELAY in *.
  rewrite recompute_nonneg by (try int_range; lia).
  split; [apply Z.div_le_lower_bound | apply Z.div_le_upper_bound]; lia.
Qed.

Lemma lifecycle_keeps_bounds_witness :
  spins_in_bounds (mkGlobals 200)
  /\ MIN_SPINS_PER_DELAY <= recompute_spins_per_delay 100 (mkGlobals 200)
     <= MAX_SPINS_PER_DELAY.
Proof.
  assert (Hs : MIN_SPINS_PER_DELAY <= 100 <= MAX_SPINS_PER_DELAY)
    by (unfold MIN_SPINS_PER_DELAY, MAX_SPINS_PER_DELAY; lia).
  assert (E : s_lock_sequence [env_free]
                (set_spins_per_delay 100 initial_globals)
              = Some (mkGlobals 200)).
  { cbn [s_lock_sequence]. rewrite s_lock_first_try by reflexivity.
    reflexivity. }
  exact (lifecycle_keeps_bounds 100 initial_globals [env_free]
           (mkGlobals 200) Hs E).
Defined.

(** ** The flag over a whole history *)

(** X12.  Over a whole history of calls on one flag, the successful
    [tas] calls are at most one more than the releases, and no more than
    the releases when the flag was set at the start: a [tas] succeeds
    only on a flag that a release (or the initial state) left free. *)
Theorem successes_bounded_by_releases (lock : Z)
  (cs : list AtomicFlag.call) :
  (AtomicFlag.successes (AtomicFlag.history lock cs)
   <= flag_releases (AtomicFlag.history lock cs)
      + if AtomicFlag.isFree lock then 1 else 0)%nat.
Proof.
  unfold AtomicFlag.successes, flag_releases. revert lock.
  induction cs as [|[who|who] cs IH]; intros lock.
  - cbn. lia.
  - cbn [AtomicFlag.history].
    pose proof (tas_sets lock) as Hset. pose proof (tas_success lock) as Hok.
    destruct (AtomicFlag.tas lock) as [ret lock'] eqn:Et.
    cbn [fst snd] in *. specialize (IH lock').
    assert (Hbusy : AtomicFlag.isFree lock' = false)
      by (unfold AtomicFlag.isFree; apply Z.eqb_neq; exact Hset).
    rewrite Hbusy in IH.
    cbn [filter AtomicFlag.is_success AtomicFlag.is_release].
    rewrite Hok. destruct (AtomicFlag.isFree lock); cbn [length]; lia.
  - cbn [AtomicFlag.history filter AtomicFlag.is_success
           AtomicFlag.is_release length].
    specialize (IH (AtomicFlag.release lock)).
    destruct (AtomicFlag.isFree (AtomicFlag.release lock));
      destruct (AtomicFlag.isFree lock); lia.
Qed.

(** ** One process alone on the lock *)

Lemma lock_after_set k lock : lock_after (S k) lock <> 0.
Proof. cbn [lock_after]. apply tas_sets. Qed.

Lemma alone_first lock rnd :
  TAS (env_alone lock rnd) 0 = if lock =? 0 then 0 else -128.
Proof. reflexivity. Qed.

Lemma alone_later lock rnd k : TAS (env_alone lock rnd) (S k) = -128.
Proof.
  cbn [TAS env_alone]. pose proof (lock_after_set k lock) as H.
  unfold AtomicFlag.tas at 1. cbn [fst].
  destruct (Z.eqb_spec (lock_after (S k) lock) 0); [contradiction|].
  reflexivity.
Qed.

Lemma alone_all_fail lock rnd :
  lock <> 0 -> forall k, TAS (env_alone lock rnd) k <> 0.
Proof.
  intros Hl [|k].
  - rewrite alone_first. destruct (Z.eqb_spec lock 0);
      [contradiction | discriminate].
  - rewrite alone_later. discriminate.
Qed.

(** X13.  The lock is not reentrant, and nothing but a release frees
    it.  A process alone on the lock word gets a free lock at the first
    try of s_lock() and leaves the word set; on a word that is set,
    every [TAS] fails, the word stays set, and the call ends in
    [s_lock_stuck] after [NUM_DELAYS] sleeps. *)
Theorem lock_not_reentrant (lock : Z) (rnd : nat -> Z) (g : globals) :
  CInt.in_range (spins_per_delay g) ->
  (lock = 0 ->
   exists l, s_lock (env_alone lock rnd) g
             = Acquired (adjust_spins_per_delay 0 g) l
             /\ tas_calls l = 1%nat
             /\ lock_after (tas_calls l) lock <> 0)
  /\ (lock <> 0 ->
      exists l, s_lock (env_alone lock rnd) g = Stuck g l
                /\ length (slept l) = Z.to_nat NUM_DELAYS
                /\ lock_after (tas_calls l) lock <> 0).
Proof.
  intros Hspd. split.
  - intros ->. eexists. rewrite s_lock_first_try by reflexivity.
    split; [reflexivity|]. split; [reflexivity|].
    cbn [tas_calls]. apply lock_after_set.
  - intros Hl.
    destruct (stuck_when_all_fail (env_alone lock rnd) g Hspd
                (alone_all_fail lock rnd Hl)) as (l & E & Hlen).
    exists l. split; [exact E|]. split; [exact Hlen|].
    destruct (tas_calls l) as [|k]; [exact Hl | apply lock_after_set].
Qed.

Lemma lock_not_reentrant_witness :
  exists l, s_lock (env_alone 128 sample_random) (mkGlobals 10)
            = Stuck (mkGlobals 10) l
            /\ length (slept l) = Z.to_nat NUM_DELAYS
            /\ lock_after (tas_calls l) 128 <> 0.
Proof.
  assert (Hspd : CInt.in_range (spins_per_delay (mkGlobals 10)))
    by (unfold CInt.in_range, CInt.INT_MIN, CInt.INT_MAX; cbn; lia).
  destruct (lock_not_reentrant 128 sample_random (mkGlobals 10) Hspd)
    as [_ H].
  apply H. discriminate.
Defined.

(** ** The test program *)

(** X14.  The test program passes every one of its checks and ends as
    it announces: whatever [random()] gives, it prints its three lines,
    then one star for each of the [NUM_DELAYS] sleeps of its last
    s_lock(), and is ended by [s_lock_stuck] with status 1; it never
    reaches one of its [return 1]. *)
Theorem self_test_ends_stuck (rnd : nat -> Z) :
  SelfTest.main rnd
  = SelfTest.Ended
      ([SelfTest.Printf
          "S_LOCK_TEST: this will print %d stars and then\n" [NUM_DELAYS];
        SelfTest.Printf
          "             exit with a 'stuck spinlock' message\n" [];
        SelfTest.Printf
          "             if S_LOCK() and TAS() are working.\n" []]
       ++ repeat SelfTest.Star (Z.to_nat NUM_DELAYS)
       ++ [SelfTest.Stuck_spinlock])
      (SelfTest.Exit 1).
Proof.
  unfold SelfTest.main, SelfTest.main_body, SelfTest.seq.
  cbn -[s_lock SelfTest.call_s_lock NUM_DELAYS Z.to_nat].
  unfold SelfTest.call_s_lock.
  cbn [SelfTest.lock SelfTest.test_lock SelfTest.statics
       SelfTest.random_used SelfTest.printed SelfTest.print].
  assert (Hspd : CInt.in_range (spins_per_delay initial_globals))
    by (unfold CInt.in_range, CInt.INT_MIN, CInt.INT_MAX, initial_globals,
          DEFAULT_SPINS_PER_DELAY; cbn; lia).
  destruct (stuck_when_all_fail
              (env_alone 128 (fun k => rnd (0 + k)%nat)) initial_globals
              Hspd (alone_all_fail 128 _ ltac:(discriminate)))
    as (l & E & Hlen).
  change (s_lock (env_alone _ _) _)
    with (s_lock (env_alone 128 (fun k => rnd (0 + k)%nat)) initial_globals).
  rewrite E, Hlen. reflexivity.
Qed.
